(** * Nebula: the command inhibitor pipeline and the argument validator

    A shallow embedding of [src/Command.ts], [src/Validator/index.ts] and
    [src/validator/ArraySchema.ts].

    Conventions of the embedding:
    - a JavaScript number that the caller supplies (a limit, a permission
      level, the argument of a rule) is a [Number]: not-a-number, an
      infinity or a finite rational; comparisons are those of JavaScript,
      and arithmetic on finite numbers is exact, the rounding of doubles
      being left out;
    - a number the code computes itself from 1 by adding 1 (exact below
      2^53), or reads from [Date.now()] or from the length of an array, is
      an integer, a [Z];
    - [undefined] is [None], a present value is [Some];
    - a [Discord.Collection] and a plain object used as a dictionary are
      [gmap string _];
    - mutation of [this] is explicit state passing through a small state
      monad; a thrown [NebulaError] is the left injection of a sum. *)

From Stdlib Require Import DecimalString QArith Lqa.
From stdpp Require Import gmap strings list fin_maps pretty.

Set Warnings "-register-all".

(** ** JavaScript numbers

    Not-a-number, the two infinities and the finite numbers, a finite number
    being a rational and zero carrying no sign.  The comparisons are the
    ones the code makes: [<], [<=] and [===], all false when an operand is
    not-a-number. *)

Module Number.

Inductive Number : Type :=
  | NaN
  | Finite (q : Q)
  | Infinity (negative : bool).

Definition ofZ (n : Z) : Number := Finite (inject_Z n).

(** [x < y] *)
Definition lt (x y : Number) : Prop :=
  match x, y with
  | Finite a, Finite b => (a < b)%Q
  | Finite _, Infinity negative => negative = false
  | Infinity negative, Finite _ => negative = true
  | Infinity negative, Infinity negative' =>
      negative = true ∧ negative' = false
  | _, _ => False
  end.

(** [x === y] *)
Definition strictEq (x y : Number) : Prop :=
  match x, y with
  | Finite a, Finite b => (a == b)%Q
  | Infinity negative, Infinity negative' => negative = negative'
  | _, _ => False
  end.

(** [x <= y] *)
Definition le (x y : Number) : Prop := lt x y ∨ strictEq x y.

(** [x - y] *)
Definition sub (x y : Number) : Number :=
  match x, y with
  | Finite a, Finite b => Finite (a - b)
  | Finite _, Infinity negative => Infinity (negb negative)
  | Infinity negative, Finite _ => Infinity negative
  | Infinity negative, Infinity negative' =>
      if bool_decide (negative = negative') then NaN else Infinity negative
  | _, _ => NaN
  end.


Definition isNaN (x : Number) : bool :=
  match x with NaN => true | _ => false end.

(** The numbers that are integers. *)
Definition isInteger (x : Number) (n : Z) : Prop := strictEq x (ofZ n).

End Number.

Abbreviation Number := Number.Number.
Coercion Number.ofZ : Z >-> Number.Number.

Declare Scope number_scope.
Delimit Scope number_scope with num.
Notation "x < y" := (Number.lt x y) : number_scope.
Notation "x > y" := (Number.lt y x) : number_scope.
Notation "x <= y" := (Number.le x y) : number_scope.
Notation "x >= y" := (Number.le y x) : number_scope.
Notation "x == y" := (Number.strictEq x y)
  (at level 70, no associativity) : number_scope.

Global Instance Number_lt_dec : RelDecision Number.lt.
Proof.
  intros [|a|n] [|b|n']; simpl; try apply _.
  unfold Qlt. apply _.
Defined.

Global Instance Number_strictEq_dec : RelDecision Number.strictEq.
Proof.
  intros [|a|n] [|b|n']; simpl; try apply _.
  unfold Qeq. apply _.
Defined.

Global Instance Number_le_dec : RelDecision Number.le.
Proof. intros x y. unfold Number.le. apply _. Defined.

Global Arguments Number.lt : simpl never.
Global Arguments Number.strictEq : simpl never.
Global Arguments Number.le : simpl never.

(** [new NebulaError(message)] *)
Inductive NebulaError : Type := mkNebulaError (message : string).

(** The part of [Discord.Message] that the command reads. *)
Record Message : Type := mkMessage {
  guild_id : string;      (* message.guild.id *)
  author_id : string;     (* message.author.id *)
  channel_nsfw : bool     (* (message.channel as TextChannel).nsfw *)
}.

(** ** Command.ts *)

Module Command.

Local Open Scope Z_scope.

(** [addon.permissions], consumed through its two queries only. *)
Record Addon : Type := mkAddon {
  permissions_check : Number → Message → bool;
  permissions_checkExact : Number → Message → bool
}.

(** *** Options as the caller passes them ([OptionalCommandOptions]) *)

Record LimitOptions : Type := mkLimitOptions {
  opt_bucket : option Number;
  opt_time : option Number;
  opt_scope : option string
}.

Record SubcommandsOptions (C : Type) : Type := mkSubcommandsOptions {
  opt_defaultToFirst : option bool;
  opt_commands : option (list C)
}.
Arguments mkSubcommandsOptions {C}.
Arguments opt_defaultToFirst {C}.
Arguments opt_commands {C}.

Record PermissionOptions : Type := mkPermissionOptions {
  opt_exact : option bool;
  opt_level : option Number
}.

Record OptionalCommandOptions (C : Type) : Type := mkOptionalCommandOptions {
  opt_name : option string;
  opt_alias : option (list string);
  opt_description : option string;
  opt_nsfw : option bool;
  opt_isSubcommand : option bool;
  opt_limit : option LimitOptions;
  opt_subcommands : option (SubcommandsOptions C);
  opt_permission : option PermissionOptions
}.
Arguments mkOptionalCommandOptions {C}.
Arguments opt_name {C}.
Arguments opt_alias {C}.
Arguments opt_description {C}.
Arguments opt_nsfw {C}.
Arguments opt_isSubcommand {C}.
Arguments opt_limit {C}.
Arguments opt_subcommands {C}.
Arguments opt_permission {C}.

(** A class handed to [subcommands.commands].  [extendsCommand] is the
    outcome of [Subcommand.prototype instanceof Command]; a class that does
    extend [Command] calls [super(addon, superOptions)] from its constructor
    and may define the [shouldDispatch] hook, which answers from the message
    it is given. *)
Inductive CommandClass : Type :=
  mkClass (className : string)
          (extendsCommand : bool)
          (shouldDispatchHook : option (Message → bool))
          (superOptions : OptionalCommandOptions CommandClass).

Definition className (c : CommandClass) : string :=
  match c with mkClass n _ _ _ => n end.
Definition extendsCommand (c : CommandClass) : bool :=
  match c with mkClass _ e _ _ => e end.
Definition shouldDispatchHook (c : CommandClass) : option (Message → bool) :=
  match c with mkClass _ _ h _ => h end.
Definition superOptions (c : CommandClass) : OptionalCommandOptions CommandClass :=
  match c with mkClass _ _ _ o => o end.

(** *** Options after [merge({}, defaultOptions, options)] ([CommandOptions]) *)

Record Limit : Type := mkLimit {
  bucket : Number;
  scope : string;
  time : Number
}.

Record Subcommands : Type := mkSubcommands {
  defaultToFirst : bool;
  commands : list CommandClass
}.

Record Permission : Type := mkPermission {
  exact : bool;
  level : Number
}.

Record CommandOptions : Type := mkCommandOptions {
  name : string;
  alias : list string;
  description : string;
  nsfw : bool;
  limit : Limit;
  subcommands : Subcommands;
  isSubcommand : bool;
  permission : Permission
}.

Definition limitScopes : list string := ["user"; "guild"].

Definition defaultOptions : CommandOptions :=
  {| name := "";
     alias := [];
     description := "";
     nsfw := false;
     limit := {| bucket := 1; scope := "user"; time := 0 |};
     subcommands := {| defaultToFirst := false; commands := [] |};
     isSubcommand := false;
     permission := {| exact := false; level := 0 |} |}.

(** [merge] keeps the default wherever the source property is undefined. *)
Definition merge (defaults : CommandOptions)
    (options : OptionalCommandOptions CommandClass) : CommandOptions :=
  {| name := default (name defaults) (opt_name options);
     alias := default (alias defaults) (opt_alias options);
     description := default (description defaults) (opt_description options);
     nsfw := default (nsfw defaults) (opt_nsfw options);
     limit :=
       match opt_limit options with
       | None => limit defaults
       | Some l =>
           {| bucket := default (bucket (limit defaults)) (opt_bucket l);
              scope := default (scope (limit defaults)) (opt_scope l);
              time := default (time (limit defaults)) (opt_time l) |}
       end;
     subcommands :=
       match opt_subcommands options with
       | None => subcommands defaults
       | Some s =>
           {| defaultToFirst :=
                default (defaultToFirst (subcommands defaults)) (opt_defaultToFirst s);
              commands :=
                default (commands (subcommands defaults)) (opt_commands s) |}
       end;
     isSubcommand := default (isSubcommand defaults) (opt_isSubcommand options);
     permission :=
       match opt_permission options with
       | None => permission defaults
       | Some p =>
           {| exact := default (exact (permission defaults)) (opt_exact p);
              level := default (level (permission defaults)) (opt_level p) |}
       end |}.

(** *** The command instance

    [objId] is the identity of the JavaScript object (two [new] expressions
    never give the same object); [usage] maps a scope id to
    [[bucket, time]]; [_sweepInterval] holds the handle [setInterval]
    returned, or [None] for [null]. *)
Inductive Command : Type := mkCommand {
  objId : nat;
  addon : Addon;
  options : CommandOptions;
  shouldDispatch : option (Message → bool);
  usage : gmap string (Z * Z);
  instantiatedSubcommands : list Command;
  _sweepInterval : option nat
}.

Definition set_usage (u : gmap string (Z * Z)) (c : Command) : Command :=
  {| objId := objId c; addon := addon c; options := options c;
     shouldDispatch := shouldDispatch c; usage := u;
     instantiatedSubcommands := instantiatedSubcommands c;
     _sweepInterval := _sweepInterval c |}.

Definition set_sweepInterval (h : option nat) (c : Command) : Command :=
  {| objId := objId c; addon := addon c; options := options c;
     shouldDispatch := shouldDispatch c; usage := usage c;
     instantiatedSubcommands := instantiatedSubcommands c;
     _sweepInterval := h |}.

(** *** The event loop around one command

    [timers] is the table of live interval timers of the JavaScript runtime
    (handle to period in milliseconds), [nextTimer] the next unused handle.
    [trace] records, oldest first, which gate and which notification hook
    ran. *)
Inductive Event : Type :=
  | RanShouldDispatch
  | RanAllowUsage
  | RanAllowNSFW
  | RanAllowPerm
  | DidInhibitUsage
  | DidInhibitNSFW
  | DidInhibitPerm.

Global Instance Event_eq_dec : EqDecision Event.
Proof. solve_decision. Defined.

Record World : Type := mkWorld {
  this : Command;
  timers : gmap nat Z;
  nextTimer : nat;
  trace : list Event
}.

Definition M (A : Type) : Type := World → A * World.

Definition ret {A} (a : A) : M A := λ w, (a, w).
Definition bind {A B} (m : M A) (k : A → M B) : M B :=
  λ w, let '(a, w') := m w in k a w'.

Declare Scope cmd_scope.
Delimit Scope cmd_scope with cmd.
Notation "'let*' x ':=' m 'in' k" := (bind m (λ x, k))
  (at level 10, x name, m at level 100, k at level 200) : cmd_scope.
Notation "m ;; k" := (bind m (λ _, k))
  (at level 100, k at level 200, right associativity) : cmd_scope.
Local Open Scope cmd_scope.

Definition getThis : M Command := λ w, (this w, w).

Definition modifyThis (f : Command → Command) : M unit :=
  λ w, (tt, {| this := f (this w); timers := timers w;
               nextTimer := nextTimer w; trace := trace w |}).

Definition emit (e : Event) : M unit :=
  λ w, (tt, {| this := this w; timers := timers w;
               nextTimer := nextTimer w; trace := trace w ++ [e] |}).

(** [setInterval(callback, ms)]: a fresh handle enters the timer table. *)
Definition setInterval (ms : Z) : M nat :=
  λ w, (nextTimer w,
        {| this := this w; timers := <[nextTimer w := ms]> (timers w);
           nextTimer := S (nextTimer w); trace := trace w |}).

(** [clearInterval(handle)]; clearing [null] does nothing. *)
Definition clearInterval (h : option nat) : M unit :=
  λ w, (tt, {| this := this w;
               timers := match h with
                         | Some n => delete n (timers w)
                         | None => timers w
                         end;
               nextTimer := nextTimer w; trace := trace w |}).

(** The scope id that keys the ledger. *)
Definition scopeId (c : Command) (message : Message) : string :=
  if bool_decide (scope (limit (options c)) = "guild")
  then guild_id message else author_id message.

(** [allowUsage]; [currTime] is what [Date.now()] returns. *)
Definition allowUsage (currTime : Z) (message : Message) : M bool :=
  let* c := getThis in
  if bool_decide (time (limit (options c)) == 0)%num then ret true
  else
    let id := scopeId c message in
    match usage c !! id with
    | Some (bucket0, time0) =>
        if bool_decide (Number.ofZ (currTime - time0)
                        > time (limit (options c)))%num
        then
          modifyThis (λ c, set_usage (<[id := (1, currTime)]> (usage c)) c);;
          ret true
        else if bool_decide (Number.ofZ bucket0 == bucket (limit (options c)))%num
        then
          ret false
        else
          modifyThis
            (λ c, set_usage (<[id := (bucket0 + 1, currTime)%Z]> (usage c)) c);;
          ret true
    | None =>
        modifyThis (λ c, set_usage (<[id := (1, currTime)]> (usage c)) c);;
        let* c' := getThis in
        (match _sweepInterval c' with
         | None =>
             let* h := setInterval 30000 in
             modifyThis (set_sweepInterval (Some h))
         | Some _ => ret tt
         end);;
        ret true
    end.

(** [_sweep], the interval's callback.  [Collection.sweep(fn)] removes the
    entries on which [fn] holds. *)
Definition _sweep (currTime : Z) : M unit :=
  modifyThis (λ c,
    set_usage
      (filter (λ kv, ¬ (currTime - (kv.2).2 > time (limit (options c)))%num)
              (usage c)) c);;
  let* c := getThis in
  if bool_decide (size (usage c) = 0%nat) then
    clearInterval (_sweepInterval c);;
    modifyThis (set_sweepInterval None)
  else ret tt.

Definition allowNSFW (message : Message) : M bool :=
  let* c := getThis in
  ret (negb (nsfw (options c)) || channel_nsfw message).

Definition allowPerm (message : Message) : M bool :=
  let* c := getThis in
  let permissionLevel := level (permission (options c)) in
  if exact (permission (options c))
  then ret (permissions_checkExact (addon c) permissionLevel message)
  else ret (permissions_check (addon c) permissionLevel message).

(** [composeInhibitors].  The three [didInhibit*] hooks only send a reply;
    their invocation is recorded in the trace. *)
Definition composeInhibitors (currTime : Z) (message : Message) : M bool :=
  let* c := getThis in
  let* shouldDispatch0 :=
    match shouldDispatch c with
    | Some hook => emit RanShouldDispatch;; ret (hook message)
    | None => ret true
    end in
  if negb shouldDispatch0 then ret false
  else
    emit RanAllowUsage;;
    let* allowUsage0 := allowUsage currTime message in
    if negb allowUsage0 then emit DidInhibitUsage;; ret false
    else
      emit RanAllowNSFW;;
      let* allowNSFW0 := allowNSFW message in
      if negb allowNSFW0 then emit DidInhibitNSFW;; ret false
      else
        emit RanAllowPerm;;
        let* allowPerm0 := allowPerm message in
        if negb allowPerm0 then emit DidInhibitPerm;; ret false
        else ret true.

(** *** Construction

    [new Subcommand(addon)] allocates a fresh object and runs the class's
    constructor.  The heap keeps the next unused object identity and, oldest
    first, one record per constructor invocation: the nesting depth of the
    [new] expression (0 for the one the application evaluates, 1 for those
    its constructor evaluates, ...), the class and the object allocated. *)
Record Construction : Type := mkConstruction {
  depth : nat;
  ofClass : string;
  obj : nat
}.

Record Heap : Type := mkHeap {
  nextObj : nat;
  constructions : list Construction
}.

Definition Ctor (A : Type) : Type := Heap → (NebulaError + A) * Heap.

Definition cret {A} (a : A) : Ctor A := λ h, (inr a, h).
Definition throw {A} (message : string) : Ctor A :=
  λ h, (inl (mkNebulaError message), h).
Definition cbind {A B} (m : Ctor A) (k : A → Ctor B) : Ctor B :=
  λ h, match m h with
       | (inr a, h') => k a h'
       | (inl e, h') => (inl e, h')
       end.

Declare Scope ctor_scope.
Delimit Scope ctor_scope with ctor.
Notation "'let*' x ':=' m 'in' k" := (cbind m (λ x, k))
  (at level 10, x name, m at level 100, k at level 200) : ctor_scope.
Notation "m ;; k" := (cbind m (λ _, k))
  (at level 100, k at level 200, right associativity) : ctor_scope.

Definition alloc (d : nat) (cls : string) : Ctor nat :=
  λ h, (inr (nextObj h),
        {| nextObj := S (nextObj h);
           constructions :=
             constructions h ++ [mkConstruction d cls (nextObj h)] |}).

Fixpoint mapM {A B} (f : A → Ctor B) (l : list A) : Ctor (list B) :=
  match l with
  | [] => cret []
  | a :: l' => (let* b := f a in let* bs := mapM f l' in cret (b :: bs))%ctor
  end.

(** The checks of the constructor that precede [super(addon)].
    ([Util.isObject(options)] holds of every record.) *)
Definition checkOptions (options : OptionalCommandOptions CommandClass)
  : Ctor unit :=
  (if bool_decide (opt_name options = None) then
     throw "The name of the command must be specified"
   else
     (match opt_limit options with
      | Some l =>
          if match opt_scope l with
             | Some s => negb (bool_decide (s ∈ limitScopes))
             | None => false
             end
          then throw "The limit scope must be either user or guild"
          else if match opt_bucket l with
                  | Some b => bool_decide (b <= 0)%num
                  | None => false
                  end
          then throw "The limit bucket must be greater than 1"
          else match opt_time l with
               | None =>
                   throw "The limit time must be specified when the limit options are specified"
               | Some t =>
                   if bool_decide (t <= 0)%num
                   then throw "The limit must be greater than 0"
                   else cret tt
               end
      | None => cret tt
      end);;
     (match opt_subcommands options with
      | Some s =>
          match opt_commands s with
          | None | Some [] =>
              throw "The commands for subcommands options must have at least a command"
          | Some (_ :: _) => cret tt
          end
      | None => cret tt
      end);;
     (match opt_permission options with
      | Some p =>
          match opt_level p with
          | None =>
              throw "The permission level must be specified when permission options are specified"
          | Some _ => cret tt
          end
      | None => cret tt
      end))%ctor.

(** The callback of [this.options.subcommands.commands.map(...)]; [new] is
    the [new Subcommand(this.addon)] expression. *)
Definition instantiate (new : CommandClass → Addon → Ctor Command)
    (addon : Addon) (Subcommand : CommandClass) : Ctor Command :=
  (if negb (extendsCommand Subcommand) then
     throw "subcommands must inherit the Command structure"
   else
     let* subcommand := new Subcommand addon in
     if negb (isSubcommand (options subcommand)) then
       throw "subcommands must have isSubcommand set to true"
     else new Subcommand addon)%ctor.

(** The constructor, with the evaluation of the [.map(...)] over the
    subcommand classes passed as [subs]. *)
Definition constructor_with (subs : Ctor (list Command)) (id : nat)
    (hook : option (Message → bool)) (addon : Addon)
    (options : OptionalCommandOptions CommandClass) : Ctor Command :=
  (checkOptions options;;
   let mergedOptions := merge defaultOptions options in
   let* instantiated := subs in
   cret {| objId := id; addon := addon; options := mergedOptions;
           shouldDispatch := hook; usage := ∅;
           instantiatedSubcommands := instantiated;
           _sweepInterval := None |})%ctor.

(** [constructor(addon, options)] of [Command]. *)
Definition constructor (new : CommandClass → Addon → Ctor Command) (id : nat)
    (hook : option (Message → bool)) (addon : Addon)
    (options : OptionalCommandOptions CommandClass) : Ctor Command :=
  constructor_with
    (mapM (instantiate new addon)
          (commands (subcommands (merge defaultOptions options))))
    id hook addon options.

(** [new cls(addon)] at nesting depth [d].  The recursion goes through the
    classes listed in the options; the list is taken from the options by
    pattern matching so that the recursion is structural, and [new_unfold]
    below shows that this is [constructor] applied to [new] itself. *)
Fixpoint new (d : nat) (cls : CommandClass) (addon : Addon) {struct cls}
  : Ctor Command :=
  match cls with
  | mkClass cn _ hook opts =>
      (let* id := alloc d cn in
       constructor_with
         (match opts with
          | mkOptionalCommandOptions _ _ _ _ _ _
              (Some (mkSubcommandsOptions _ (Some cs))) _ =>
              (fix each (l : list CommandClass) : Ctor (list Command) :=
                 match l with
                 | [] => cret []
                 | Sub :: l' =>
                     let* b := instantiate (new (S d)) addon Sub in
                     let* bs := each l' in
                     cret (b :: bs)
                 end) cs
          | _ => cret []
          end)
         id hook addon opts)%ctor
  end.

(** *** Running a constructed command *)

(** The world right after the application has constructed [c]. *)
Definition initWorld (c : Command) : World :=
  {| this := c; timers := ∅; nextTimer := 0%nat; trace := [] |}.

Definition set_trace (t : list Event) (w : World) : World :=
  {| this := this w; timers := timers w; nextTimer := nextTimer w;
     trace := t |}.

(** Successive [allowUsage] calls, one per clock reading. *)
Fixpoint allowUsages (times : list Z) (message : Message) : M (list bool) :=
  match times with
  | [] => ret []
  | t :: ts =>
      let* r := allowUsage t message in
      let* rs := allowUsages ts message in
      ret (r :: rs)
  end.

(** The outcome of the first gate, [true] when the class defines no
    [shouldDispatch], and what evaluating it adds to the trace. *)
Definition predicateOf (c : Command) (message : Message) : bool :=
  match shouldDispatch c with Some hook => hook message | None => true end.

Definition predicateEvents (c : Command) : list Event :=
  match shouldDispatch c with Some _ => [RanShouldDispatch] | None => [] end.

(** Operations on the ledger, in any interleaving. *)
Inductive Op : Type :=
  | CallAllowUsage (currTime : Z) (message : Message)
  | CallSweep (currTime : Z).

Definition runOp (op : Op) (w : World) : World :=
  match op with
  | CallAllowUsage t m => (allowUsage t m w).2
  | CallSweep t => (_sweep t w).2
  end.

Definition runOps (ops : list Op) (w : World) : World :=
  foldl (λ w op, runOp op w) w ops.

(** One turn of the event loop: an inbound message reaches
    [composeInhibitors], or a live interval timer fires and runs its
    callback [_sweep].  A cleared timer never fires. *)
Inductive step : World → World → Prop :=
  | step_message (currTime : Z) (message : Message) (w : World) :
      step w (composeInhibitors currTime message w).2
  | step_tick (h : nat) (ms currTime : Z) (w : World) :
      timers w !! h = Some ms →
      step w (_sweep currTime w).2.

Definition reachable (c : Command) (w : World) : Prop :=
  rtc step (initWorld c) w.

(** Every bucket of the ledger lies between 1 and the configured maximum. *)
Definition bounded (w : World) : Prop :=
  ∀ id bucket0 time0,
    usage (this w) !! id = Some (bucket0, time0) →
    1 ≤ bucket0
    ∧ (Number.ofZ bucket0 <= bucket (limit (options (this w))))%num.

(** The interval handle and the timer table agree with the ledger: a handle
    is stored exactly when the ledger has an entry, and the table holds the
    stored handle and no other timer. *)
Definition timed (w : World) : Prop :=
  (_sweepInterval (this w) = None ↔ usage (this w) = ∅)
  ∧ timers w = match _sweepInterval (this w) with
               | Some handle => {[handle := 30000]}
               | None => ∅
               end.

Definition emptyHeap : Heap := {| nextObj := 0; constructions := [] |}.

(** *** Reading the construction log *)

(** The classes a constructor maps over:
    [this.options.subcommands.commands] after the merge. *)
Definition declared (opts : OptionalCommandOptions CommandClass)
  : list CommandClass :=
  commands (subcommands (merge defaultOptions opts)).







(** *** Further readings of the constructor and of the usage hook *)

(** What the checks of the constructor accept, written as a condition on the
    options. *)
Definition validOptions (options : OptionalCommandOptions CommandClass)
  : Prop :=
  opt_name options ≠ None
  ∧ (∀ l, opt_limit options = Some l →
       (∀ s, opt_scope l = Some s → s = "user" ∨ s = "guild")
       ∧ (∀ b, opt_bucket l = Some b → ¬ (b <= 0)%num)
       ∧ ∃ t, opt_time l = Some t ∧ ¬ (t <= 0)%num)
  ∧ (∀ s, opt_subcommands options = Some s →
       ∃ Sub rest, opt_commands s = Some (Sub :: rest))
  ∧ (∀ p, opt_permission options = Some p → opt_level p ≠ None).

(** What the callback of the [map] over the declared classes guarantees of
    the instance it returns. *)
Definition instanceOf (a : Addon) (Sub : CommandClass) (sub : Command)
  : Prop :=
  extendsCommand Sub = true
  ∧ options sub = merge defaultOptions (superOptions Sub)
  ∧ isSubcommand (options sub) = true
  ∧ addon sub = a
  ∧ shouldDispatch sub = shouldDispatchHook Sub
  ∧ usage sub = ∅
  ∧ _sweepInterval sub = None.

(** The number of constructor invocations [new cls(addon)] makes when it
    succeeds: its own, and two for every declared subcommand class, each of
    which constructs its own subcommands again. *)
Fixpoint constructionsOf (cls : CommandClass) : nat :=
  match cls with
  | mkClass _ _ _ opts =>
      S (match opts with
         | mkOptionalCommandOptions _ _ _ _ _ _
             (Some (mkSubcommandsOptions _ (Some cs))) _ =>
             (fix total (l : list CommandClass) : nat :=
                match l with
                | [] => 0
                | Sub :: l' =>
                    constructionsOf Sub + constructionsOf Sub + total l'
                end)%nat cs
         | _ => 0%nat
         end)
  end.


(** What [allowUsage] does to the entry of the scope it is called for, the
    limit being enabled: the outcome and the entry afterwards, from the
    clock and the entry before. *)
Definition transition (lim : Limit) (now : Z) (entry : option (Z * Z))
  : bool * option (Z * Z) :=
  match entry with
  | None => (true, Some (1, now))
  | Some (bucket0, time0) =>
      if bool_decide (Number.ofZ (now - time0) > time lim)%num
      then (true, Some (1, now))
      else if bool_decide (Number.ofZ bucket0 == bucket lim)%num
           then (false, Some (bucket0, time0))
           else (true, Some (bucket0 + 1, now))
  end.

(** How many of the calls were allowed. *)
Definition allowedCount (results : list bool) : nat :=
  length (filter Is_true results).

End Command.

(** ** Command.ts: [send] *)

Module Send.

(** [SendOptions]: an object, of which [send] reads no field. *)
Definition SendOptions : Type := list (string * string).

(** What the first parameter holds: [string | SendOptions]. *)
Inductive Content : Type :=
  | Text (s : string)
  | Object (o : SendOptions).

(** What the caller passes as second argument: nothing, [null], or an
    object. *)
Inductive OptionsArg : Type :=
  | Omitted
  | IsNull
  | Given (o : SendOptions).

(** The two arguments [channel.send] is called with; the message it
    resolves to is identified with them. *)
Record Sent : Type := mkSent {
  sentContent : Content;
  sentOptions : Content
}.

(** [this.responses], and what has been sent to the channel of the
    activating message, oldest first. *)
Record Chat : Type := mkChat {
  responses : gmap string (list Sent);
  channel : list Sent
}.

(** [send(content, options = {})] on the command whose activating message
    has the id [messageId].  [isObject] is [Util.isObject], which the sources
    at hand do not include.  The result is [None] when [responses.push]
    throws a [TypeError] because the message has no entry in
    [this.responses]. *)
Definition send (isObject : Content → bool) (messageId : string)
    (content : Content) (options : OptionsArg) (st : Chat)
  : option Sent * Chat :=
  let options :=
    match options with
    | Omitted => Some (Object [])          (* the default parameter *)
    | IsNull => None
    | Given o => Some (Object o)
    end in
  let '(actualContent, actualOptions) :=
    if negb (bool_decide (is_Some options)) && isObject content
    then (Text "", content)
    else (content, Object []) in
  let found := responses st !! messageId in
  let message := {| sentContent := actualContent;
                    sentOptions := actualOptions |} in
  let st' := {| responses := responses st;
                channel := channel st ++ [message] |} in
  match found with
  | Some list =>
      (Some message,
       {| responses := <[messageId := list ++ [message]]> (responses st');
          channel := channel st' |})
  | None => (None, st')
  end.

End Send.

(** ** Validator/index.ts *)

Module Validator.

(** [Primitives = string | number | boolean] *)
Inductive Primitives : Type :=
  | PString (s : string)
  | PNumber (n : Z)
  | PBoolean (b : bool).

(** Modelled from the spec: the class [ValidationError] is not part of the
    sources at hand; a violation record carries the [value], the [field]
    and the [type] it was constructed with, in the order
    [new ValidationError(value, key, type)]. *)
Record ValidationError : Type := mkValidationError {
  err_value : option string;
  err_field : string;
  err_type : string
}.

Record ValueStoreEntry : Type := mkValueStoreEntry {
  value : Primitives;
  type : string;
  rawValue : string
}.

Record ValidationRuleArguments : Type := mkValidationRuleArguments {
  arg_value : Primitives;
  arg_rawValue : option string;
  arg_key : string;
  arg_ref : string → option ValueStoreEntry;
  arg_message : Message
}.

(** A rule returns its verdict together with the violations it pushes on
    the [errs] array of its validator; [None] stands for a rule that throws. *)
Definition ValidationRule : Type :=
  ValidationRuleArguments → option (bool * list ValidationError).

(** What [validate] uses of [StringValidator | NumberValidator |
    BooleanValidator]: the type tag, [flags.optional], the coercion (with
    [None] for [null]) and the rule chain. *)
Record BaseValidator : Type := mkBaseValidator {
  v_type : string;
  flags_optional : option bool;
  coerce : string → option Primitives;
  rules : list ValidationRule
}.

(** [Util.entriesOf(schema)]: the schema as its entries in declaration
    order. *)
Definition Schema : Type := list (string * BaseValidator).

Record ValidatorOptions : Type := mkValidatorOptions {
  abortEarly : bool;
  coerceOption : bool
}.

Definition defaultOptions : ValidatorOptions :=
  {| abortEarly := true; coerceOption := true |}.

(** What a key of the returned object maps to. *)
Inductive Result : Type :=
  | Value (v : Primitives)
  | Raw (s : option string)
  | Null
  | Errors (errs : list ValidationError).

Inductive Outcome : Type :=
  | Returned (results : gmap string Result)
  | Threw.

(** The calls [validate] makes into the validators, oldest first. *)
Inductive Call : Type :=
  | Coerce (key : string)
  | Rule (key : string) (index : nat).

Global Instance Call_eq_dec : EqDecision Call.
Proof. solve_decision. Defined.

(** The first loop, from entry [i] on.  It returns early with a one-key
    object, or falls through with the value store filled. *)
Fixpoint coercePass (validatorEntries : Schema) (i : nat)
    (values : list string) (valueStore : gmap string ValueStoreEntry)
  : (gmap string Result + gmap string ValueStoreEntry) * list Call :=
  match validatorEntries with
  | [] => (inr valueStore, [])
  | (currKey, currValidator) :: rest =>
      let currValue := values !! i in
      let err := [mkValidationError currValue currKey (v_type currValidator)] in
      match currValue with
      | None =>
          if negb (default false (flags_optional currValidator))
          then (inl {[currKey := Errors err]}, [])
          else (inl {[currKey := Null]}, [])
      | Some raw =>
          match coerce currValidator raw with
          | None => (inl {[currKey := Errors err]}, [Coerce currKey])
          | Some coerced =>
              let entry := {| value := coerced; type := v_type currValidator;
                              rawValue := raw |} in
              let '(r, calls) :=
                coercePass rest (S i) values (<[currKey := entry]> valueStore) in
              (r, Coerce currKey :: calls)
          end
      end
  end.

(** The rule chain of one field, from rule [n] on, with [errs] the
    validator's array so far. *)
Inductive ChainExit : Type :=
  | Aborted (errs : list ValidationError)
  | Completed (errs : list ValidationError)
  | RuleThrew.

Fixpoint ruleChain (abortEarly : bool) (key : string)
    (args : ValidationRuleArguments) (rs : list ValidationRule) (n : nat)
    (errs : list ValidationError) : ChainExit * list Call :=
  match rs with
  | [] => (Completed errs, [])
  | rule :: rs' =>
      match rule args with
      | None => (RuleThrew, [Rule key n])
      | Some (result, pushed) =>
          if negb result && abortEarly
          then (Aborted (errs ++ pushed), [Rule key n])
          else
            let '(r, calls) :=
              ruleChain abortEarly key args rs' (S n) (errs ++ pushed) in
            (r, Rule key n :: calls)
      end
  end.

(** The second loop, from entry [i] on. *)
Fixpoint rulePass (options : ValidatorOptions) (message : Message)
    (validatorEntries : Schema) (i : nat) (values : list string)
    (valueStore : gmap string ValueStoreEntry) (results : gmap string Result)
  : Outcome * list Call :=
  match validatorEntries with
  | [] => (Returned results, [])
  | (currKey, currValidator) :: rest =>
      match valueStore !! currKey with
      | None => (Threw, [])
      | Some entry =>
          let currRawValue := values !! i in
          let args := {| arg_value := value entry;
                         arg_rawValue := currRawValue;
                         arg_key := currKey;
                         arg_ref := λ refKey, valueStore !! refKey;
                         arg_message := message |} in
          match ruleChain (abortEarly options) currKey args
                  (rules currValidator) 0 [] with
          | (RuleThrew, calls) => (Threw, calls)
          | (Aborted errs, calls) => (Returned {[currKey := Errors errs]}, calls)
          | (Completed errs, calls) =>
              let result :=
                match errs with
                | _ :: _ => Errors errs
                | [] => if coerceOption options then Value (value entry)
                        else Raw currRawValue
                end in
              let '(r, calls') :=
                rulePass options message rest (S i) values valueStore
                  (<[currKey := result]> results) in
              (r, calls ++ calls')
          end
      end
  end.

(** [validate(message, values, schema)] with the validator's options. *)
Definition validate (options : ValidatorOptions) (message : Message)
    (values : list string) (schema : Schema) : Outcome * list Call :=
  let validatorEntries := schema in
  match coercePass validatorEntries 0 values ∅ with
  | (inl early, calls) => (Returned early, calls)
  | (inr valueStore, calls) =>
      let '(r, calls') :=
        rulePass options message validatorEntries 0 values valueStore ∅ in
      (r, calls ++ calls')
  end.

(** *** Conditions on a schema and its tokens *)

(** No rule of the schema throws. *)
Definition rulesReturn (entries : Schema) : Prop :=
  ∀ k v, (k, v) ∈ entries → ∀ rule, rule ∈ rules v →
         ∀ args, is_Some (rule args).

(** Every field has its token, and the token coerces. *)
Definition tokensCoerce (entries : Schema) (i : nat) (values : list string)
  : Prop :=
  ∀ j kv, entries !! j = Some kv →
          ∃ raw, values !! (i + j) = Some raw ∧ is_Some (coerce kv.2 raw).


(** The argument the second loop hands to the rules of the field [currKey]
    at index [i], whose store entry is [entry]. *)
Definition ruleArguments (message : Message) (values : list string)
    (valueStore : gmap string ValueStoreEntry) (i : nat) (currKey : string)
    (entry : ValueStoreEntry) : ValidationRuleArguments :=
  {| arg_value := value entry;
     arg_rawValue := values !! i;
     arg_key := currKey;
     arg_ref := λ refKey, valueStore !! refKey;
     arg_message := message |}.

(** On the call at hand every rule passes and pushes no violation: each rule
    of the fields from index [i] on, given the argument the second loop hands
    it on the value store [valueStore]. *)
Definition rulesPassFrom (message : Message) (values : list string)
    (valueStore : gmap string ValueStoreEntry) (i : nat) (entries : Schema)
  : Prop :=
  ∀ j k v entry rule,
    entries !! j = Some (k, v) →
    valueStore !! k = Some entry →
    rule ∈ rules v →
    rule (ruleArguments message values valueStore (i + j) k entry)
    = Some (true, []).

(** The same for a whole call of [validate], on the value store its first
    loop builds. *)
Definition rulesPass (message : Message) (values : list string)
    (schema : Schema) : Prop :=
  ∀ valueStore calls,
    coercePass schema 0 values ∅ = (inr valueStore, calls) →
    rulesPassFrom message values valueStore 0 schema.

End Validator.

(** ** validator/ArraySchema.ts *)

Module ArraySchema.

Local Open Scope Z_scope.

(** The values a schema is asked to validate ([unknown] in the source). *)
Inductive Value : Type :=
  | VUndefined
  | VNull
  | VBoolean (b : bool)
  | VNumber (n : Number)
  | VString (s : string)
  | VArray (items : list Value).

(** Modelled from the spec: the violation record of the schema classes is
    not part of the sources at hand; a violation is tagged with a kind
    ([required], [<type>] or [<type>.<ruleName>]) and attributed to the
    current path. *)
Record ValidationError : Type := mkValidationError {
  err_type : string;
  err_path : option string
}.

Record ValidationResults : Type := mkValidationResults {
  value : option Value;                 (* [null] is [None] *)
  errors : list ValidationError;
  pass : bool
}.

Record ValidatorOptions : Type := mkValidatorOptions {
  shouldAbortEarly : option bool;
  path : option string;
  parent : option Value
}.

(** The static side of [Validator]: the value [Validator.setValue] was last
    called with. *)
Record Static : Type := mkStatic { rootValue : option Value }.

(** State and exceptions. *)
Definition M (A : Type) : Type := Static → (NebulaError + A) * Static.

Definition ret {A} (a : A) : M A := λ σ, (inr a, σ).
Definition throw {A} (message : string) : M A :=
  λ σ, (inl (mkNebulaError message), σ).
Definition bind {A B} (m : M A) (k : A → M B) : M B :=
  λ σ, match m σ with
       | (inr a, σ') => k a σ'
       | (inl e, σ') => (inl e, σ')
       end.

Declare Scope schema_scope.
Delimit Scope schema_scope with schema.
Notation "'let*' x ':=' m 'in' k" := (bind m (λ x, k))
  (at level 10, x name, m at level 100, k at level 200) : schema_scope.
Notation "m ;; k" := (bind m (λ _, k))
  (at level 100, k at level 200, right associativity) : schema_scope.
Local Open Scope schema_scope.

(** [Validator.setValue(value)] *)
Definition setValue (v : Value) : M unit :=
  λ _, (inr tt, {| rootValue := Some v |}).

(** A schema object, as far as [ArraySchema] uses one: its [validate]
    method. *)
Record Schema : Type := mkSchema {
  validate : Value → ValidatorOptions → M ValidationResults
}.

(** A rule is given the coerced value, the raw value, the path and the
    parent, and answers with a boolean unless it throws. *)
Record RuleArguments : Type := mkRuleArguments {
  arg_value : Value;
  arg_rawValue : Value;
  arg_key : option string;
  arg_parent : option Value
}.

Definition Rule : Type := RuleArguments → M bool.

(** What a concrete schema class supplies to the base class. *)
Record Hooks : Type := mkHooks {
  type : string;
  optional : bool;
  coerce : Value → option Value;
  check : Value → bool;
  rules : list (Rule * string)         (* [addRule(rule, name)] *)
}.

(** The rule chain of the base class, with the violations so far. *)
Fixpoint runRules (abort : bool) (ty : string) (args : RuleArguments)
    (key : option string) (rs : list (Rule * string))
    (errs : list ValidationError) : M (list ValidationError) :=
  match rs with
  | [] => ret errs
  | (rule, name) :: rs' =>
      let* ok := rule args in
      if ok then runRules abort ty args key rs' errs
      else
        let errs' := errs ++ [mkValidationError (ty +:+ "." +:+ name) key] in
        if abort then ret errs' else runRules abort ty args key rs' errs'
  end.

(** Modelled from the spec: [Schema.validate] of the base class is not part
    of the sources at hand.  A missing value passes with [null] when the
    schema is optional and is one [required] violation otherwise; a value
    that does not coerce, or does not satisfy the type check, is one
    violation of the schema's type; then the rules run in declaration order,
    stopping at the first failure when aborting early; the result passes when
    there is no violation. *)
Definition Schema_validate (hooks : Hooks) (v : Value)
    (options : ValidatorOptions) : M ValidationResults :=
  let abort := default true (shouldAbortEarly options) in
  match v with
  | VUndefined =>
      if optional hooks
      then ret {| value := None; errors := []; pass := true |}
      else ret {| value := None;
                  errors := [mkValidationError "required" (path options)];
                  pass := false |}
  | _ =>
      match coerce hooks v with
      | Some coerced =>
          if check hooks coerced then
            let args := {| arg_value := coerced; arg_rawValue := v;
                           arg_key := path options;
                           arg_parent := parent options |} in
            let* errs :=
              runRules abort (type hooks) args (path options) (rules hooks) []
            in
            ret {| value := Some coerced; errors := errs;
                   pass := bool_decide (errs = []) |}
          else
            ret {| value := None;
                   errors := [mkValidationError (type hooks) (path options)];
                   pass := false |}
      | None =>
          ret {| value := None;
                 errors := [mkValidationError (type hooks) (path options)];
                 pass := false |}
      end
  end.

(** *** The class [ArraySchema] *)

Record ArraySchema : Type := mkArraySchema {
  _schema : option Schema;
  arrayOptional : bool;
  arrayRules : list (Rule * string)
}.

(** [check(value)]: [Array.isArray(value)] *)
Definition isArray (v : Value) : bool :=
  match v with VArray _ => true | _ => false end.

(** The three rule builders.  [resolve] is [this.resolve], which the
    sources at hand do not include. *)
Section Rules.
Variable resolve : Value → Value.

Definition itemCount (v : Value) : Z :=
  match v with VArray items => Z.of_nat (length items) | _ => 0 end.

Definition lengthRule (num : Value) : Rule * string :=
  (λ args,
     match resolve num with
     | VNumber resolved =>
         ret (bool_decide
                (Number.ofZ (itemCount (arg_value args)) == resolved)%num)
     | _ => throw "The number of items for array.length must be a number"
     end,
   "length").

Definition minRule (num : Value) : Rule * string :=
  (λ args,
     match resolve num with
     | VNumber resolved =>
         ret (bool_decide
                (Number.ofZ (itemCount (arg_value args)) >= resolved)%num)
     | _ => throw "The number of items for array.min must be a number"
     end,
   "min").

Definition maxRule (num : Value) : Rule * string :=
  (λ args,
     match resolve num with
     | VNumber resolved =>
         ret (bool_decide
                (Number.ofZ (itemCount (arg_value args)) <= resolved)%num)
     | _ => throw "The number of items for array.max must be a number"
     end,
   "max").
End Rules.

(** What [ArraySchema] hands to the base class: [super('array')], its own
    [check], no coercion of its own. *)
Definition hooksOf (self : ArraySchema) : Hooks :=
  {| type := "array";
     optional := arrayOptional self;
     coerce := Some;
     check := isArray;
     rules := arrayRules self |}.

(** [path == null ? i.toString() : `${path}.${i}`] *)
Definition itemPath (path : option string) (i : nat) : string :=
  match path with
  | None => pretty i
  | Some p => p +:+ "." +:+ pretty i
  end.

(** [{ ...options, path: ..., parent: baseResult.value }] *)
Definition itemOptions (options : ValidatorOptions) (array : Value) (i : nat)
  : ValidatorOptions :=
  {| shouldAbortEarly := shouldAbortEarly options;
     path := Some (itemPath (path options) i);
     parent := Some array |}.

(** How the [for] loop is left: by [return finalResult] from its body, or
    by running out of items. *)
Inductive LoopExit : Type :=
  | Return (finalResult : ValidationResults)
  | Done (finalResult : ValidationResults).

(** The [for] loop from index [i] on, [items] being the items not yet
    visited. *)
Fixpoint validateItems (inner : Schema) (options : ValidatorOptions)
    (array : Value) (abort : bool) (items : list Value) (i : nat)
    (finalResult : ValidationResults) : M LoopExit :=
  match items with
  | [] => ret (Done finalResult)
  | item :: rest =>
      let* result := validate inner item (itemOptions options array i) in
      let pushed := {| value := value finalResult;
                       errors := errors finalResult ++ errors result;
                       pass := pass finalResult |} in
      if negb (pass result) then
        let failed := {| value := value pushed; errors := errors pushed;
                         pass := false |} in
        if abort then ret (Return failed)
        else validateItems inner options array abort rest (S i) failed
      else validateItems inner options array abort rest (S i) pushed
  end.

(** [ArraySchema.validate(value, options)] *)
Definition ArraySchema_validate (self : ArraySchema) (v : Value)
    (options : ValidatorOptions) : M ValidationResults :=
  let abort := default true (shouldAbortEarly options) in
  let finalResult := {| value := None; errors := []; pass := true |} in
  let* baseResult := Schema_validate (hooksOf self) v options in
  match _schema self with
  | None => ret baseResult
  | Some inner =>
      if negb (pass baseResult) then ret baseResult
      else
        match value baseResult with
        | Some (VArray items) =>
            (match path options with
             | None => setValue (VArray items)
             | Some _ => ret tt
             end);;
            let* exit :=
              validateItems inner options (VArray items) abort items 0
                finalResult in
            match exit with
            | Return finalResult => ret finalResult
            | Done finalResult =>
                if negb (pass finalResult) then ret finalResult
                else ret {| value := Some (VArray items);
                            errors := errors finalResult;
                            pass := pass finalResult |}
            end
        | _ => ret baseResult
        end
  end.

(** An array schema as a schema object, so that arrays nest. *)
Definition asSchema (self : ArraySchema) : Schema :=
  {| validate := ArraySchema_validate self |}.

(** The items are validated one after the other: [itemRuns] relates the
    state before the item at index [i] to the results of the items and the
    state after the last one, none of the calls throwing. *)
Inductive itemRuns (inner : Schema) (options : ValidatorOptions)
    (array : Value) : nat → list Value → Static →
                      list ValidationResults → Static → Prop :=
  | runs_nil i σ : itemRuns inner options array i [] σ [] σ
  | runs_cons i item rest σ result σ1 results σ2 :
      validate inner item (itemOptions options array i) σ = (inr result, σ1) →
      itemRuns inner options array (S i) rest σ1 results σ2 →
      itemRuns inner options array i (item :: rest) σ (result :: results) σ2.

(** The state in which the loop starts. *)
Definition enterLoop (options : ValidatorOptions) (array : Value)
    (σ : Static) : Static :=
  match path options with
  | None => {| rootValue := Some array |}
  | Some _ => σ
  end.

End ArraySchema.

(** ** Validator/index.ts, second part: the Discord rules of [StringSchema] *)

Module StringSchema.

Import Stdlib.Strings.Ascii.

(** [\d] and [\w] of a JavaScript regular expression. *)
Definition isDigit (c : Ascii.ascii) : bool :=
  (48 <=? Ascii.nat_of_ascii c)%nat && (Ascii.nat_of_ascii c <=? 57)%nat.

Definition isWord (c : Ascii.ascii) : bool :=
  isDigit c
  || (65 <=? Ascii.nat_of_ascii c)%nat && (Ascii.nat_of_ascii c <=? 90)%nat
  || (97 <=? Ascii.nat_of_ascii c)%nat && (Ascii.nat_of_ascii c <=? 122)%nat
  || (Ascii.nat_of_ascii c =? 95)%nat.

(** The longest prefix whose characters satisfy [p], and what follows it:
    what a greedy [p*] consumes when the next thing to match cannot start
    with a [p]. *)
Fixpoint span (p : Ascii.ascii → bool) (s : string) : string * string :=
  match s with
  | String c s' =>
      if p c then let '(taken, rest) := span p s' in (String c taken, rest)
      else (EmptyString, s)
  | EmptyString => (EmptyString, EmptyString)
  end.

(** What is left of [s] after the literal [pre], when [s] starts with it. *)
Fixpoint stripPrefix (pre s : string) : option string :=
  match pre with
  | EmptyString => Some s
  | String c pre' =>
      match s with
      | String d s' => if bool_decide (c = d) then stripPrefix pre' s' else None
      | EmptyString => None
      end
  end.

(** [(\d{17,19})>?$]: the captured digits. *)
Definition idAtEnd (s : string) : option string :=
  let '(id, rest) := span isDigit s in
  if (17 <=? String.length id)%nat && (String.length id <=? 19)%nat
     && (bool_decide (rest = "") || bool_decide (rest = ">"))
  then Some id else None.

(** [/^(?:<@!?)?(\d{17,19})>?$/] *)
Definition userPattern (s : string) : option string :=
  match stripPrefix "<@!" s with
  | Some r => idAtEnd r
  | None =>
      match stripPrefix "<@" s with
      | Some r => idAtEnd r
      | None => idAtEnd s
      end
  end.

(** [/^(?:<#)?(\d{17,19})>?$/] *)
Definition channelPattern (s : string) : option string :=
  match stripPrefix "<#" s with
  | Some r => idAtEnd r
  | None => idAtEnd s
  end.

(** [\w{2,32}:] and what follows it. *)
Definition afterName (s : string) : option string :=
  let '(name, rest) := span isWord s in
  if (2 <=? String.length name)%nat && (String.length name <=? 32)%nat
  then stripPrefix ":" rest
  else None.

(** [/^(?:<a?:\w{2,32}:)?(\d{17,19})>?$/] *)
Definition emojiPattern (s : string) : option string :=
  match stripPrefix "<a:" s with
  | Some r => afterName r ≫= idAtEnd
  | None =>
      match stripPrefix "<:" s with
      | Some r => afterName r ≫= idAtEnd
      | None => idAtEnd s
      end
  end.

(** [/^(?:<@&)?(\d{17,19})>?$/] *)
Definition rolePattern (s : string) : option string :=
  match stripPrefix "<@&" s with
  | Some r => idAtEnd r
  | None => idAtEnd s
  end.

(** [/^(\d{17,19})$/] *)
Definition snowflakePattern (s : string) : option string :=
  let '(id, rest) := span isDigit s in
  if (17 <=? String.length id)%nat && (String.length id <=? 19)%nat
     && bool_decide (rest = "")
  then Some id else None.

(** What the rule reads of [message.guild]: the ids each collection has. *)
Record Guild : Type := mkGuild {
  members : gset string;
  channels : gset string;
  emojis : gset string;
  roles : gset string
}.

(** The rule [_checkDiscordStrings(type)] registers, on the value and the
    message of its argument ([None] for a message that is null). *)
Definition checkDiscordStrings (type : string) (value : string)
    (message : option Guild) : bool :=
  match message with
  | None => true
  | Some guild =>
      let chosen : option ((string → option string) * option (gset string)) :=
        if bool_decide (type = "user")
        then Some (userPattern, Some (members guild))
        else if bool_decide (type = "channel")
        then Some (channelPattern, Some (channels guild))
        else if bool_decide (type = "emoji")
        then Some (emojiPattern, Some (emojis guild))
        else if bool_decide (type = "role")
        then Some (rolePattern, Some (roles guild))
        else if bool_decide (type = "snowflake")
        then Some (snowflakePattern, None)
        else None in
      match chosen with
      | None => false
      | Some (regex, collection) =>
          match regex value with
          | None => false
          | Some id =>
              match collection with
              | None => true
              | Some has => bool_decide (id ∈ has)
              end
          end
      end
  end.

(** A Discord id: 17 to 19 decimal digits. *)
Definition allDigits (s : string) : Prop :=
  ∀ c, In c (String.list_ascii_of_string s) → isDigit c = true.

Definition isId (id : string) : Prop :=
  allDigits id ∧ (17 ≤ String.length id ≤ 19)%nat.

(** What [span] takes satisfies [p] throughout, and what it leaves does not
    start with a character it would take. *)
Definition allOf (p : Ascii.ascii → bool) (taken : string) : Prop :=
  ∀ c, In c (String.list_ascii_of_string taken) → p c = true.

Definition stopsAt (p : Ascii.ascii → bool) (rest : string) : Prop :=
  match rest with
  | String c _ => p c = false
  | EmptyString => True
  end.

End StringSchema.

(** * Concrete inputs used by the examples below *)

Module Examples.
Import Command.
Local Open Scope Z_scope.

Definition noOptions : OptionalCommandOptions CommandClass :=
  {| opt_name := None; opt_alias := None; opt_description := None;
     opt_nsfw := None; opt_isSubcommand := None; opt_limit := None;
     opt_subcommands := None; opt_permission := None |}.

(** An addon whose permission service refuses everybody. *)
Definition strictAddon : Addon :=
  {| permissions_check := λ _ _, false;
     permissions_checkExact := λ _ _, false |}.

Definition aMessage : Message :=
  {| guild_id := "g1"; author_id := "u1"; channel_nsfw := false |}.

(** [limit: { bucket: 2, time: 5000 }] *)
Definition Limited : CommandClass :=
  mkClass "Limited" true None
    {| opt_name := Some "limited"; opt_alias := None;
       opt_description := None; opt_nsfw := None; opt_isSubcommand := None;
       opt_limit := Some {| opt_bucket := Some (Number.ofZ 2);
                            opt_time := Some (Number.ofZ 5000);
                            opt_scope := None |};
       opt_subcommands := None; opt_permission := None |}.

Definition limited : Command :=
  {| objId := 0; addon := strictAddon;
     options := merge defaultOptions (superOptions Limited);
     shouldDispatch := None; usage := ∅; instantiatedSubcommands := [];
     _sweepInterval := None |}.

(** [limit: { bucket: 1.5, time: 5000 }] *)
Definition Fractional : CommandClass :=
  mkClass "Fractional" true None
    {| opt_name := Some "fractional"; opt_alias := None;
       opt_description := None; opt_nsfw := None; opt_isSubcommand := None;
       opt_limit := Some {| opt_bucket := Some (Number.Finite (3 # 2));
                            opt_time := Some (Number.ofZ 5000);
                            opt_scope := None |};
       opt_subcommands := None; opt_permission := None |}.

Definition fractional : Command :=
  {| objId := 0; addon := strictAddon;
     options := merge defaultOptions (superOptions Fractional);
     shouldDispatch := None; usage := ∅; instantiatedSubcommands := [];
     _sweepInterval := None |}.

(** A command whose [shouldDispatch] always answers false. *)
Definition Gated : CommandClass :=
  mkClass "Gated" true (Some (λ _, false))
    {| opt_name := Some "gated"; opt_alias := None; opt_description := None;
       opt_nsfw := Some true; opt_isSubcommand := None;
       opt_limit := Some {| opt_bucket := Some (Number.ofZ 1);
                            opt_time := Some (Number.ofZ 1000);
                            opt_scope := Some "guild" |};
       opt_subcommands := None;
       opt_permission := Some {| opt_exact := None; opt_level := Some (Number.ofZ 3) |} |}.

Definition gated : Command :=
  {| objId := 0; addon := strictAddon;
     options := merge defaultOptions (superOptions Gated);
     shouldDispatch := Some (λ _, false); usage := ∅;
     instantiatedSubcommands := []; _sweepInterval := None |}.

(** A subcommand class, a class that forgets the flag, and a class that
    does not extend [Command]. *)
Definition Child : CommandClass :=
  mkClass "Child" true None
    {| opt_name := Some "child"; opt_alias := None; opt_description := None;
       opt_nsfw := None; opt_isSubcommand := Some true; opt_limit := None;
       opt_subcommands := None; opt_permission := None |}.

Definition Unflagged : CommandClass :=
  mkClass "Unflagged" true None
    {| opt_name := Some "unflagged"; opt_alias := None;
       opt_description := None; opt_nsfw := None; opt_isSubcommand := None;
       opt_limit := None; opt_subcommands := None; opt_permission := None |}.

Definition Alien : CommandClass := mkClass "Alien" false None noOptions.

Definition parentOf (cn : string) (subs : list CommandClass) : CommandClass :=
  mkClass cn true None
    {| opt_name := Some "parent"; opt_alias := None; opt_description := None;
       opt_nsfw := None; opt_isSubcommand := None; opt_limit := None;
       opt_subcommands := Some {| opt_defaultToFirst := None;
                                  opt_commands := Some subs |};
       opt_permission := None |}.

Definition Parent : CommandClass := parentOf "Parent" [Child; Child].
Definition BadFlag : CommandClass := parentOf "BadFlag" [Child; Unflagged].
Definition BadBase : CommandClass := parentOf "BadBase" [Alien; Child].

(** What [new Parent(addon)] returns on the empty heap. *)
Definition child (id : nat) : Command :=
  {| objId := id; addon := strictAddon;
     options := merge defaultOptions (superOptions Child);
     shouldDispatch := None; usage := ∅; instantiatedSubcommands := [];
     _sweepInterval := None |}.

Definition parent : Command :=
  {| objId := 0; addon := strictAddon;
     options := merge defaultOptions (superOptions Parent);
     shouldDispatch := None; usage := ∅;
     instantiatedSubcommands := [child 2; child 4];
     _sweepInterval := None |}.

Definition parentHeap : Heap :=
  {| nextObj := 5;
     constructions :=
       [ mkConstruction 0 "Parent" 0;
         mkConstruction 1 "Child" 1; mkConstruction 1 "Child" 2;
         mkConstruction 1 "Child" 3; mkConstruction 1 "Child" 4 ] |}.

(** Validators in the shape the builders [Validator.string()] and
    [Validator.number()] produce them.  Modelled from the spec: the classes
    [StringValidator] and [NumberValidator] are not part of the sources at
    hand; coercion keeps a string as it is and parses a number from its
    decimal digits, giving [null] otherwise. *)
Definition stringValidator (optional : option bool) : Validator.BaseValidator :=
  {| Validator.v_type := "string";
     Validator.flags_optional := optional;
     Validator.coerce := λ s, Some (Validator.PString s);
     Validator.rules := [] |}.

Definition numberValidator (optional : option bool) : Validator.BaseValidator :=
  {| Validator.v_type := "number";
     Validator.flags_optional := optional;
     Validator.coerce := λ s, Validator.PNumber ∘ Z.of_int
                               <$> NilZero.int_of_string s;
     Validator.rules := [] |}.

(** Rules in the shape the builders register them: the verdict, and with a
    false verdict the violation pushed on the validator's [errs].  Modelled
    from the spec: [addRule] of the validator classes is not part of the
    sources at hand. *)
Definition verdict (args : Validator.ValidationRuleArguments) (name : string)
    (ok : bool) : option (bool * list Validator.ValidationError) :=
  Some (ok,
        if ok then []
        else [Validator.mkValidationError (Validator.arg_rawValue args)
                (Validator.arg_key args) ("string." +:+ name)]).

(** [min(n)]: the value has at least [n] characters. *)
Definition minLength (n : nat) : Validator.ValidationRule := λ args,
  verdict args "min"
    match Validator.arg_value args with
    | Validator.PString s => bool_decide (n ≤ String.length s)%nat
    | _ => false
    end.

(** [user()], for messages of a guild whose one member is
    [123456789012345678]. *)
Definition aGuild : StringSchema.Guild :=
  {| StringSchema.members := {["123456789012345678"]};
     StringSchema.channels := ∅;
     StringSchema.emojis := ∅;
     StringSchema.roles := ∅ |}.

Definition userRule : Validator.ValidationRule := λ args,
  verdict args "user"
    match Validator.arg_value args with
    | Validator.PString s =>
        StringSchema.checkDiscordStrings "user" s (Some aGuild)
    | _ => false
    end.

(** A rule that reads another field through [ref]: the raw value equals the
    raw value of the field [refKey]. *)
Definition sameAs (refKey : string) : Validator.ValidationRule := λ args,
  verdict args "same"
    (bool_decide (Validator.rawValue <$> Validator.arg_ref args refKey
                  = Validator.arg_rawValue args)).

Definition withRules (rs : list Validator.ValidationRule)
  : Validator.BaseValidator :=
  {| Validator.v_type := "string";
     Validator.flags_optional := None;
     Validator.coerce := λ s, Some (Validator.PString s);
     Validator.rules := rs |}.

(** [{ mention: string().min(3).user(), again: string().same('mention') }] *)
Definition mentionSchema : Validator.Schema :=
  [("mention", withRules [minLength 3; userRule]);
   ("again", withRules [sameAs "mention"])].

(** The number schema.  Modelled from the spec: the class [NumberSchema] is
    not part of the sources at hand; its coercion parses a number from the
    decimal digits of a string and its type check accepts numbers only. *)
Definition numberHooks : ArraySchema.Hooks :=
  {| ArraySchema.type := "number";
     ArraySchema.optional := false;
     ArraySchema.coerce := λ v,
       match v with
       | ArraySchema.VNumber n => Some (ArraySchema.VNumber n)
       | ArraySchema.VString s =>
           ArraySchema.VNumber ∘ Number.ofZ ∘ Z.of_int
             <$> NilZero.int_of_string s
       | _ => None
       end;
     ArraySchema.check := λ v,
       match v with ArraySchema.VNumber _ => true | _ => false end;
     ArraySchema.rules := [] |}.

Definition numberSchema : ArraySchema.Schema :=
  {| ArraySchema.validate := ArraySchema.Schema_validate numberHooks |}.

(** [Validator.array(Validator.number())] *)
Definition arrayOfNumbers : ArraySchema.ArraySchema :=
  {| ArraySchema._schema := Some numberSchema;
     ArraySchema.arrayOptional := false;
     ArraySchema.arrayRules := [] |}.

(** [[1, 2, "x"]] *)
Definition oneTwoX : list ArraySchema.Value :=
  [ArraySchema.VNumber (Number.ofZ 1); ArraySchema.VNumber (Number.ofZ 2);
   ArraySchema.VString "x"].

(** [Validator.array(Validator.array(Validator.number()))] *)
Definition arrayOfArrays : ArraySchema.ArraySchema :=
  {| ArraySchema._schema := Some (ArraySchema.asSchema arrayOfNumbers);
     ArraySchema.arrayOptional := false;
     ArraySchema.arrayRules := [] |}.

Definition collectAll : ArraySchema.ValidatorOptions :=
  {| ArraySchema.shouldAbortEarly := Some false;
     ArraySchema.path := None;
     ArraySchema.parent := None |}.

Definition noRoot : ArraySchema.Static := {| ArraySchema.rootValue := None |}.

(** [Validator.array().length('three')], with a [resolve] that gives back
    what is not a reference, and an array schema whose items are such
    arrays. *)
Definition badLength : ArraySchema.ArraySchema :=
  {| ArraySchema._schema := None;
     ArraySchema.arrayOptional := false;
     ArraySchema.arrayRules :=
       [ArraySchema.lengthRule id (ArraySchema.VString "three")] |}.

Definition arrayOfBadLength : ArraySchema.ArraySchema :=
  {| ArraySchema._schema := Some (ArraySchema.asSchema badLength);
     ArraySchema.arrayOptional := false;
     ArraySchema.arrayRules := [] |}.

End Examples.

(** * Properties *)

(** ** Comparisons of numbers *)

Section Numbers.
Local Open Scope Z_scope.

Implicit Types (x y z : Number) (a b : Z).

Lemma lt_ofZ a b : (Number.ofZ a < Number.ofZ b)%num ↔ a < b.
Proof. unfold Number.ofZ, Number.lt. by rewrite <- Zlt_Qlt. Qed.

Lemma strictEq_ofZ a b : (Number.ofZ a == Number.ofZ b)%num ↔ a = b.
Proof.
  unfold Number.ofZ, Number.strictEq. by rewrite inject_Z_injective.
Qed.

Lemma le_ofZ a b : (Number.ofZ a <= Number.ofZ b)%num ↔ a ≤ b.
Proof. unfold Number.le. rewrite lt_ofZ, strictEq_ofZ. lia. Qed.

Lemma strictEq_sym x y : (x == y)%num → (y == x)%num.
Proof. unfold Number.strictEq. destruct x, y; done. Qed.

Lemma strictEq_trans x y z : (x == y)%num → (y == z)%num → (x == z)%num.
Proof.
  unfold Number.strictEq. destruct x, y, z; try done; try congruence.
  intros H1 H2. by rewrite H1.
Qed.

Lemma lt_strictEq_r x y z : (y == z)%num → (x < y)%num ↔ (x < z)%num.
Proof.
  unfold Number.strictEq, Number.lt.
  destruct x, y, z; try done; try (by intros ->).
Qed.

Lemma lt_strictEq_l x y z : (x == y)%num → (x < z)%num ↔ (y < z)%num.
Proof.
  unfold Number.strictEq, Number.lt.
  destruct x, y, z; try done; try (by intros ->).
Qed.

Lemma strictEq_strictEq_r x y z :
  (y == z)%num → (x == y)%num ↔ (x == z)%num.
Proof.
  intros H. split; intros H'; [by eapply strictEq_trans|].
  eapply strictEq_trans; [done|]. by apply strictEq_sym.
Qed.

Lemma strictEq_strictEq_l x y z :
  (x == y)%num → (x == z)%num ↔ (y == z)%num.
Proof.
  intros H. split; intros H'.
  - eapply strictEq_trans; [by apply strictEq_sym|done].
  - by eapply strictEq_trans.
Qed.

Lemma le_strictEq_l x y z : (x == y)%num → (x <= z)%num ↔ (y <= z)%num.
Proof.
  intros H. unfold Number.le.
  by rewrite (lt_strictEq_l _ _ _ H), (strictEq_strictEq_l _ _ _ H).
Qed.

Lemma le_strictEq_r x y z : (y == z)%num → (x <= y)%num ↔ (x <= z)%num.
Proof.
  intros H. unfold Number.le.
  by rewrite (lt_strictEq_r _ _ _ H), (strictEq_strictEq_r _ _ _ H).
Qed.

Lemma lt_irrefl x y : (x < y)%num → ¬ (x == y)%num.
Proof.
  unfold Number.strictEq, Number.lt.
  destruct x as [|a|n], y as [|b|n']; try tauto.
  - intros H1 H2. rewrite H2 in H1. by apply Qlt_irrefl in H1.
  - intros [H1 H2] H3. congruence.
Qed.

(** Strict equality is [<=] both ways; two numbers compare one way or the
    other unless one of them is not-a-number, which compares with nothing. *)
Lemma strictEq_le x y : (x == y)%num ↔ (x <= y)%num ∧ (y <= x)%num.
Proof.
  unfold Number.le, Number.lt, Number.strictEq.
  destruct x as [|a|[]], y as [|b|[]]; try (intuition congruence).
  split.
  - intros H. split; right; [done | by symmetry].
  - intros [[H1|H1] [H2|H2]]; try done; lra.
Qed.

Lemma le_total x y :
  (x <= y)%num ∨ (y <= x)%num ↔ Number.isNaN x = false ∧ Number.isNaN y = false.
Proof.
  unfold Number.le, Number.lt, Number.strictEq.
  destruct x as [|a|[]], y as [|b|[]]; simpl; try (intuition congruence).
  split; [done|]. intros _.
  destruct (Qlt_le_dec a b) as [?|Hle]; [by left; left|].
  destruct (Qle_lt_or_eq _ _ Hle) as [?|?]; [by right; left | by right; right].
Qed.

(** Later clock readings stay over a window once it is exceeded, and
    earlier ones stay within it. *)
Lemma gt_mono x a b : a ≤ b → (Number.ofZ a > x)%num → (Number.ofZ b > x)%num.
Proof.
  intros Hab. unfold Number.lt, Number.ofZ.
  destruct x as [|q|n]; try done.
  rewrite Zle_Qle in Hab. intros H. lra.
Qed.

End Numbers.

Section CommandUsage.
Import Command.
Local Open Scope Z_scope.

Implicit Types (w : World) (c : Command) (message : Message).

(** The five transitions of [allowUsage], as equations on the world. *)

Lemma allowUsage_disabled currTime message w :
  (time (limit (options (this w))) == 0)%num →
  allowUsage currTime message w = (true, w).
Proof.
  intros Ht. unfold allowUsage, bind, getThis; simpl.
  rewrite bool_decide_eq_true_2 by done. reflexivity.
Qed.

Lemma allowUsage_create currTime message w :
  ¬ (time (limit (options (this w))) == 0)%num →
  usage (this w) !! scopeId (this w) message = None →
  allowUsage currTime message w =
    (true,
     let c' := set_usage (<[scopeId (this w) message := (1, currTime)]>
                            (usage (this w))) (this w) in
     match _sweepInterval (this w) with
     | None =>
         {| this := set_sweepInterval (Some (nextTimer w)) c';
            timers := <[nextTimer w := 30000]> (timers w);
            nextTimer := S (nextTimer w); trace := trace w |}
     | Some _ =>
         {| this := c'; timers := timers w; nextTimer := nextTimer w;
            trace := trace w |}
     end).
Proof.
  intros Ht Hu. unfold allowUsage, bind, getThis; simpl.
  rewrite bool_decide_eq_false_2 by done. rewrite Hu. simpl.
  destruct (_sweepInterval (this w)); reflexivity.
Qed.

Lemma allowUsage_reset currTime message w bucket0 time0 :
  ¬ (time (limit (options (this w))) == 0)%num →
  usage (this w) !! scopeId (this w) message = Some (bucket0, time0) →
  (Number.ofZ (currTime - time0) > time (limit (options (this w))))%num →
  allowUsage currTime message w =
    (true,
     {| this := set_usage (<[scopeId (this w) message := (1, currTime)]>
                             (usage (this w))) (this w);
        timers := timers w; nextTimer := nextTimer w; trace := trace w |}).
Proof.
  intros Ht Hu Hgt. unfold allowUsage, bind, getThis; simpl.
  rewrite bool_decide_eq_false_2 by done. rewrite Hu.
  rewrite bool_decide_eq_true_2 by done. reflexivity.
Qed.

Lemma allowUsage_deny currTime message w bucket0 time0 :
  ¬ (time (limit (options (this w))) == 0)%num →
  usage (this w) !! scopeId (this w) message = Some (bucket0, time0) →
  ¬ (Number.ofZ (currTime - time0) > time (limit (options (this w))))%num →
  (Number.ofZ bucket0 == bucket (limit (options (this w))))%num →
  allowUsage currTime message w = (false, w).
Proof.
  intros Ht Hu Hle Heq. unfold allowUsage, bind, getThis; simpl.
  rewrite bool_decide_eq_false_2 by done. rewrite Hu.
  rewrite bool_decide_eq_false_2 by done.
  rewrite bool_decide_eq_true_2 by done. reflexivity.
Qed.

Lemma allowUsage_increment currTime message w bucket0 time0 :
  ¬ (time (limit (options (this w))) == 0)%num →
  usage (this w) !! scopeId (this w) message = Some (bucket0, time0) →
  ¬ (Number.ofZ (currTime - time0) > time (limit (options (this w))))%num →
  ¬ (Number.ofZ bucket0 == bucket (limit (options (this w))))%num →
  allowUsage currTime message w =
    (true,
     {| this := set_usage
                  (<[scopeId (this w) message := (bucket0 + 1, currTime)]>
                     (usage (this w))) (this w);
        timers := timers w; nextTimer := nextTimer w; trace := trace w |}).
Proof.
  intros Ht Hu Hle Hne. unfold allowUsage, bind, getThis; simpl.
  rewrite bool_decide_eq_false_2 by done. rewrite Hu.
  rewrite !bool_decide_eq_false_2 by done. reflexivity.
Qed.

Example limited_constructed :
  (new 0 Examples.Limited Examples.strictAddon emptyHeap).1
  = inr Examples.limited.
Proof. reflexivity. Qed.

(** C1, as the specification states it, fails: with bucket 2 and a window
    of 5000 ms the calls at 0, 1, 2 are allowed, allowed, denied, but the
    call at 5001 is denied as well, and the entry is still [(2, 1)]: the
    second call replaced the timestamp 0 by 1, so only 5000 ms have passed
    since. *)
Lemma C1_counterexample :
  let r := allowUsages [0; 1; 2; 5001] Examples.aMessage
             (initWorld Examples.limited) in
  r.1 = [true; true; false; false]
  ∧ r.1 ≠ [true; true; false; true]
  ∧ usage (this r.2) !! "u1" = Some (2, 1)
  ∧ usage (this (allowUsages [0; 1] Examples.aMessage
                   (initWorld Examples.limited)).2) !! "u1" ≠ Some (2, 0).
Proof. vm_compute. repeat split; congruence. Qed.

Lemma scopeId_options c c' message :
  options c = options c' → scopeId c message = scopeId c' message.
Proof. unfold scopeId. by intros ->. Qed.

(** What one [allowUsage] call does to the options and to the ledger. *)
Lemma allowUsage_view currTime message w :
  ¬ (time (limit (options (this w))) == 0)%num →
  let id := scopeId (this w) message in
  let r := allowUsage currTime message w in
  options (this r.2) = options (this w)
  ∧ match usage (this w) !! id with
    | None =>
        r.1 = true
        ∧ usage (this r.2) = <[id := (1, currTime)]> (usage (this w))
    | Some (bucket0, time0) =>
        if decide (Number.ofZ (currTime - time0)
                   > time (limit (options (this w))))%num
        then
          r.1 = true
          ∧ usage (this r.2) = <[id := (1, currTime)]> (usage (this w))
        else if decide (Number.ofZ bucket0
                        == bucket (limit (options (this w))))%num
        then
          r.1 = false ∧ r.2 = w
        else
          r.1 = true
          ∧ usage (this r.2)
            = <[id := (bucket0 + 1, currTime)]> (usage (this w))
    end.
Proof.
  intros Ht id r. subst r.
  destruct (usage (this w) !! id) as [[bucket0 time0]|] eqn:Hu.
  - destruct (decide _); [ by erewrite allowUsage_reset |].
    destruct (decide _).
    + by erewrite allowUsage_deny.
    + by erewrite allowUsage_increment.
  - rewrite allowUsage_create by done.
    destruct (_sweepInterval (this w)); done.
Qed.

(** The same when the bucket maximum and the window are the integers [B]
    and [T]: the comparisons are those of the integers. *)
Lemma allowUsage_view_integers currTime message w (B T : Z) :
  (bucket (limit (options (this w))) == B)%num →
  (time (limit (options (this w))) == T)%num →
  T ≠ 0 →
  let id := scopeId (this w) message in
  let r := allowUsage currTime message w in
  options (this r.2) = options (this w)
  ∧ match usage (this w) !! id with
    | None =>
        r.1 = true
        ∧ usage (this r.2) = <[id := (1, currTime)]> (usage (this w))
    | Some (bucket0, time0) =>
        if decide (currTime - time0 > T) then
          r.1 = true
          ∧ usage (this r.2) = <[id := (1, currTime)]> (usage (this w))
        else if decide (bucket0 = B) then
          r.1 = false ∧ r.2 = w
        else
          r.1 = true
          ∧ usage (this r.2)
            = <[id := (bucket0 + 1, currTime)]> (usage (this w))
    end.
Proof.
  intros Hb Ht HT id r.
  assert (Hon : ¬ (time (limit (options (this w))) == 0)%num).
  { intros H.
    pose proof (strictEq_trans _ _ _ (strictEq_sym _ _ Ht) H) as H'.
    by apply (proj1 (strictEq_ofZ T 0)) in H'. }
  destruct (allowUsage_view currTime message w Hon) as [Ho V].
  split; [done|]. subst id r. cbv zeta in V.
  destruct (usage (this w) !! scopeId (this w) message)
    as [[bucket0 time0]|]; [|done].
  assert (E1 : (Number.ofZ (currTime - time0)
                > time (limit (options (this w))))%num
               ↔ currTime - time0 > T).
  { rewrite (lt_strictEq_l _ _ _ Ht), lt_ofZ. lia. }
  assert (E2 : (Number.ofZ bucket0 == bucket (limit (options (this w))))%num
               ↔ bucket0 = B).
  { rewrite <- (strictEq_strictEq_r _ _ _ (strictEq_sym _ _ Hb)).
    apply strictEq_ofZ. }
  repeat destruct (decide _); tauto.
Qed.

(** Run the next [allowUsage t] call of the goal on a world whose options
    and ledger entry for the scope are known, leaving what the call does as
    the hypothesis [V]. *)
Local Ltac usage_call t Hb Ht :=
  match goal with
  | Ho : options (this ?w) = _, Hu : usage (this ?w) = _
    |- context [allowUsage t ?m ?w] =>
      pose proof (allowUsage_view_integers t m w 2 5000) as V;
      destruct (allowUsage t m w) as [? ?]; simpl in V;
      rewrite (scopeId_options _ _ m Ho), Ho, Hu, lookup_insert_eq in V;
      specialize (V Hb Ht ltac:(lia)); simpl in V
  end.

(** C1 (amended).  With bucket 2 and a window of 5000 ms, calls for one
    scope at 0, 1, 2 are allowed, allowed, denied; the call at 5001 is still
    denied and the one at 5002 is allowed and resets the entry to bucket 1.
    The increment transition stores the current time: it takes
    [Active(bucket, t)] to [Active(bucket + 1, now)]. *)
Theorem C1_usage_window w message :
  (bucket (limit (options (this w))) == 2)%num →
  (time (limit (options (this w))) == 5000)%num →
  usage (this w) !! scopeId (this w) message = None →
  let id := scopeId (this w) message in
  let r := allowUsages [0; 1; 2; 5001; 5002] message w in
  r.1 = [true; true; false; false; true]
  ∧ usage (this r.2) !! id = Some (1, 5002)
  ∧ ∀ w' currTime bucket0 time0,
      ¬ (time (limit (options (this w'))) == 0)%num →
      usage (this w') !! scopeId (this w') message = Some (bucket0, time0) →
      ¬ (Number.ofZ (currTime - time0) > time (limit (options (this w'))))%num →
      ¬ (Number.ofZ bucket0 == bucket (limit (options (this w'))))%num →
      (allowUsage currTime message w').1 = true
      ∧ usage (this (allowUsage currTime message w').2)
          !! scopeId (this w') message
        = Some (bucket0 + 1, currTime).
Proof.
  intros Hb Ht Hu id r.
  assert (Hrun : r.1 = [true; true; false; false; true]
                 ∧ usage (this r.2) !! id = Some (1, 5002)).
  { subst r id. simpl. unfold bind, ret.
    (* t = 0: no entry yet *)
    pose proof (allowUsage_view_integers 0 message w 2 5000 Hb Ht) as V.
    destruct (allowUsage 0 message w) as [r0 w0]. simpl in V.
    rewrite Hu in V. destruct V as (O0 & -> & U0); [lia|].
    (* t = 1: the entry (1, 0) becomes (2, 1) *)
    usage_call 1 Hb Ht.
    destruct V as (O1 & -> & U1). rewrite insert_insert_eq in U1.
    (* t = 2 and t = 5001: the bucket is full, 5001 - 1 is not over 5000 *)
    usage_call 2 Hb Ht.
    destruct V as (_ & -> & ->).
    usage_call 5001 Hb Ht.
    destruct V as (_ & -> & ->).
    (* t = 5002: the window has elapsed *)
    usage_call 5002 Hb Ht.
    destruct V as (_ & -> & U4). simpl.
    split; [done|]. rewrite U4. apply lookup_insert_eq. }
  destruct Hrun as [Hres Hent]. split_and!; [done | done |].
  intros w' currTime bucket0 time0 Ht' Hu' Hle Hne.
  rewrite (allowUsage_increment _ _ _ _ _ Ht' Hu' Hle Hne). simpl.
  split; [done | apply lookup_insert_eq].
Qed.

Lemma C1_usage_window_witness :
  (allowUsages [0; 1; 2; 5001; 5002] Examples.aMessage
     (initWorld Examples.limited)).1
  = [true; true; false; false; true].
Proof.
  apply (C1_usage_window (initWorld Examples.limited) Examples.aMessage);
    reflexivity.
Defined.

(** *** The sweep *)

Lemma sweep_view currTime w :
  let r := (_sweep currTime w).2 in
  options (this r) = options (this w)
  ∧ usage (this r)
    = filter (λ kv, ¬ (Number.ofZ (currTime - kv.2.2)
                       > time (limit (options (this w))))%num)
             (usage (this w))
  ∧ nextTimer r = nextTimer w
  ∧ trace r = trace w
  ∧ if decide (usage (this r) = ∅) then
      _sweepInterval (this r) = None
      ∧ timers r = match _sweepInterval (this w) with
                   | Some h => delete h (timers w)
                   | None => timers w
                   end
    else _sweepInterval (this r) = _sweepInterval (this w)
         ∧ timers r = timers w.
Proof.
  unfold _sweep, bind, modifyThis, getThis, clearInterval, ret. simpl.
  case_bool_decide as Hsz; simpl.
  - apply map_size_empty_iff in Hsz. rewrite decide_True by done. done.
  - rewrite decide_False; [done|]. by rewrite <- map_size_empty_iff.
Qed.

(** *** The gates *)

(** [allowUsage] neither reads nor writes the trace. *)
Lemma allowUsage_trace currTime message c tm nt tr tr' :
  allowUsage currTime message (mkWorld c tm nt tr')
  = ((allowUsage currTime message (mkWorld c tm nt tr)).1,
     set_trace tr' (allowUsage currTime message (mkWorld c tm nt tr)).2).
Proof.
  unfold allowUsage, bind, getThis, modifyThis, setInterval, ret; simpl.
  destruct (bool_decide (time (limit (options c)) == 0)%num); [done|].
  destruct (usage c !! scopeId c message) as [[bucket0 time0]|]; simpl.
  - repeat case_bool_decide; done.
  - by destruct (_sweepInterval c).
Qed.

(** The pipeline, gate by gate: the outcome and the world it leaves. *)
Lemma composeInhibitors_eq currTime message w :
  composeInhibitors currTime message w =
    let pre := predicateEvents (this w) in
    if negb (predicateOf (this w) message) then
      (false, set_trace (trace w ++ pre) w)
    else
      let u := allowUsage currTime message w in
      if negb u.1 then
        (false,
         set_trace (trace w ++ pre ++ [RanAllowUsage; DidInhibitUsage]) u.2)
      else if negb (allowNSFW message u.2).1 then
        (false,
         set_trace
           (trace w ++ pre ++ [RanAllowUsage; RanAllowNSFW; DidInhibitNSFW])
           u.2)
      else if negb (allowPerm message u.2).1 then
        (false,
         set_trace
           (trace w ++ pre
              ++ [RanAllowUsage; RanAllowNSFW; RanAllowPerm; DidInhibitPerm])
           u.2)
      else
        (true,
         set_trace
           (trace w ++ pre ++ [RanAllowUsage; RanAllowNSFW; RanAllowPerm])
           u.2).
Proof.
  destruct w as [c tm nt tr].
  unfold composeInhibitors, predicateOf, predicateEvents.
  cbv [bind emit ret getThis]; simpl.
  destruct (shouldDispatch c) as [hook|]; [destruct (hook message)|]; simpl;
    [ | done | ];
    rewrite (allowUsage_trace _ _ c tm nt tr);
    destruct (allowUsage currTime message (mkWorld c tm nt tr))
      as [[] [c1 tm1 nt1 tr1]];
    cbv [bind emit ret allowNSFW allowPerm getThis set_trace]; simpl;
    rewrite <- ?app_assoc; simpl; try done.
  all: destruct (negb (nsfw (options c1)) || channel_nsfw message); simpl;
    rewrite <- ?app_assoc; simpl; [|done].
  all: destruct (exact (permission (options c1))); simpl;
    match goal with |- context [negb ?b] => destruct b end; simpl;
    rewrite <- ?app_assoc; done.
Qed.

(** [allowUsage] changes nothing of the command but the ledger and the
    interval handle, so the later gates read what they would have read
    before it. *)
Lemma allowUsage_frame currTime message w :
  let c' := this (allowUsage currTime message w).2 in
  options c' = options (this w) ∧ addon c' = addon (this w).
Proof.
  unfold allowUsage, bind, getThis, modifyThis, setInterval, ret; simpl.
  destruct (bool_decide (time (limit (options (this w))) == 0)%num); [done|].
  destruct (usage (this w) !! scopeId (this w) message)
    as [[bucket0 time0]|]; simpl.
  - repeat case_bool_decide; done.
  - by destruct (_sweepInterval (this w)).
Qed.

Lemma allowNSFW_after_usage currTime message w :
  (allowNSFW message (allowUsage currTime message w).2).1
  = (allowNSFW message w).1.
Proof.
  destruct (allowUsage_frame currTime message w) as [Ho _].
  unfold allowNSFW, bind, getThis, ret; simpl. by rewrite Ho.
Qed.

Lemma allowPerm_after_usage currTime message w :
  (allowPerm message (allowUsage currTime message w).2).1
  = (allowPerm message w).1.
Proof.
  destruct (allowUsage_frame currTime message w) as [Ho Ha].
  unfold allowPerm, bind, getThis, ret; simpl. rewrite Ho, Ha.
  by destruct (exact (permission (options (this w)))).
Qed.

(** C4.  The gates run in the order predicate, usage, NSFW, permission.  The
    events added to the trace are the gates up to and including the first
    one that fails, followed by that gate's own hook and nothing else; the
    predicate has no hook, so when it fails the world is left as it was, with
    no usage recorded and no [didInhibit*] hook invoked. *)
Theorem C4_inhibitor_order currTime message w :
  let r := composeInhibitors currTime message w in
  let pre := predicateEvents (this w) in
  let p := predicateOf (this w) message in
  let u := (allowUsage currTime message w).1 in
  let n := (allowNSFW message w).1 in
  let q := (allowPerm message w).1 in
  (p = false →
     r.1 = false ∧ r.2 = set_trace (trace w ++ [RanShouldDispatch]) w)
  ∧ (p = true → u = false →
     r.1 = false
     ∧ trace r.2 = trace w ++ pre ++ [RanAllowUsage; DidInhibitUsage])
  ∧ (p = true → u = true → n = false →
     r.1 = false
     ∧ trace r.2
       = trace w ++ pre ++ [RanAllowUsage; RanAllowNSFW; DidInhibitNSFW])
  ∧ (p = true → u = true → n = true → q = false →
     r.1 = false
     ∧ trace r.2
       = trace w ++ pre
           ++ [RanAllowUsage; RanAllowNSFW; RanAllowPerm; DidInhibitPerm])
  ∧ (p = true → u = true → n = true → q = true →
     r.1 = true
     ∧ trace r.2
       = trace w ++ pre ++ [RanAllowUsage; RanAllowNSFW; RanAllowPerm]).
Proof.
  intros r pre p u n q. subst r. rewrite composeInhibitors_eq. cbv zeta.
  rewrite allowNSFW_after_usage, allowPerm_after_usage.
  fold p u n q pre.
  split_and!.
  - intros Hp. rewrite Hp. simpl. split; [done|].
    subst p pre. unfold predicateOf, predicateEvents in *.
    by destruct (shouldDispatch (this w)).
  - intros -> ->. done.
  - intros -> -> ->. done.
  - intros -> -> -> ->. done.
  - intros -> -> -> ->. done.
Qed.

Lemma C4_inhibitor_order_witness :
  let r := composeInhibitors 0 Examples.aMessage (initWorld Examples.gated) in
  (allowNSFW Examples.aMessage (initWorld Examples.gated)).1 = false
  ∧ (allowPerm Examples.aMessage (initWorld Examples.gated)).1 = false
  ∧ r.1 = false
  ∧ trace r.2 = [RanShouldDispatch]
  ∧ usage (this r.2) = ∅.
Proof.
  intros r.
  destruct (C4_inhibitor_order 0 Examples.aMessage
              (initWorld Examples.gated)) as [Hpredicate _].
  destruct (Hpredicate eq_refl) as [Hr Hw].
  split_and!; [reflexivity | reflexivity | exact Hr | | ];
    subst r; rewrite Hw; reflexivity.
Defined.

(** C10.  When the predicate and the usage gate pass and the NSFW or the
    permission gate then refuses, [composeInhibitors] returns false and
    leaves the command exactly as [allowUsage] left it: the scope's entry
    holds the new use, stamped with the current time. *)
Theorem C10_blocked_invocation_consumes_use currTime message w :
  predicateOf (this w) message = true →
  (allowUsage currTime message w).1 = true →
  (allowNSFW message w).1 = false ∨ (allowPerm message w).1 = false →
  let r := composeInhibitors currTime message w in
  let id := scopeId (this w) message in
  r.1 = false
  ∧ this r.2 = this (allowUsage currTime message w).2
  ∧ timers r.2 = timers (allowUsage currTime message w).2
  ∧ (¬ (time (limit (options (this w))) == 0)%num →
     usage (this r.2) !! id
     = Some (match usage (this w) !! id with
             | None => 1
             | Some (bucket0, time0) =>
                 if decide (Number.ofZ (currTime - time0)
                            > time (limit (options (this w))))%num
                 then 1 else bucket0 + 1
             end, currTime)).
Proof.
  intros Hp Hu Hlater r id. subst r.
  rewrite composeInhibitors_eq. cbv zeta.
  rewrite allowNSFW_after_usage, allowPerm_after_usage, Hp, Hu.
  assert (Hent : ¬ (time (limit (options (this w))) == 0)%num →
    usage (this (allowUsage currTime message w).2) !! id
     = Some (match usage (this w) !! id with
             | None => 1
             | Some (bucket0, time0) =>
                 if decide (Number.ofZ (currTime - time0)
                            > time (limit (options (this w))))%num
                 then 1 else bucket0 + 1
             end, currTime)).
  { intros Ht. destruct (allowUsage_view currTime message w Ht) as [_ V].
    fold id in V.
    destruct (usage (this w) !! id) as [[bucket0 time0]|].
    - destruct (decide (Number.ofZ (currTime - time0) > _)%num).
      + destruct V as [_ ->]. apply lookup_insert_eq.
      + destruct (decide (Number.ofZ bucket0 == _)%num).
        * destruct V as [V _]. congruence.
        * destruct V as [_ ->]. apply lookup_insert_eq.
    - destruct V as [_ ->]. apply lookup_insert_eq. }
  destruct ((allowNSFW message w).1);
    [destruct ((allowPerm message w).1); [by destruct Hlater|]|];
    simpl; by split_and!.
Qed.

Lemma C10_blocked_invocation_consumes_use_witness :
  (composeInhibitors 7 Examples.aMessage (initWorld Examples.limited)).1
  = false
  ∧ usage (this (composeInhibitors 7 Examples.aMessage
                   (initWorld Examples.limited)).2) !! "u1"
    = Some (1, 7).
Proof.
  destruct (C10_blocked_invocation_consumes_use 7 Examples.aMessage
              (initWorld Examples.limited) eq_refl eq_refl
              (or_intror eq_refl))
    as (Hr & _ & _ & Hu).
  split; [exact Hr|]. apply Hu. discriminate.
Defined.

End CommandUsage.

(** ** Construction of commands and subcommands *)

Section CommandConstruction.
Import Command.

Implicit Types (c : Command) (cls : CommandClass) (h : Heap).

(** [new] is the constructor applied to [new] itself. *)
Lemma new_unfold d cls a :
  new d cls a
  = (let* id := alloc d (className cls) in
     constructor (new (S d)) id (shouldDispatchHook cls) a (superOptions cls))%ctor.
Proof.
  destruct cls as [cn e hook opts]. simpl. unfold constructor.
  f_equal.
  destruct opts as [? ? ? ? ? ? [[? [cs|]]|] ?]; simpl; try reflexivity.
  match goal with
  | |- (λ id, constructor_with (?each cs) _ _ _ _) = _ =>
      assert (E : ∀ l, each l = mapM (instantiate (new (S d)) a) l)
        by (induction l as [|Sub l IH]; simpl; [done | by rewrite IH])
  end.
  by rewrite E.
Qed.

Lemma checkOptions_ok options h r :
  checkOptions options h = (inr tt, r) →
  r = h ∧ ¬ (bucket (limit (merge defaultOptions options)) <= 0%Z)%num.
Proof.
  unfold checkOptions, cbind, throw, cret.
  destruct (bool_decide (opt_name options = None)); [done|].
  intros H.
  assert (Hl : ¬ (bucket (limit (merge defaultOptions options)) <= 0%Z)%num).
  { destruct (opt_limit options) as [[b t s]|] eqn:El; unfold merge;
      rewrite El; simpl in *; [|rewrite le_ofZ; lia].
    destruct b as [b|]; simpl; [|rewrite le_ofZ; lia].
    destruct (decide (b <= 0%Z)%num); [|done].
    rewrite bool_decide_eq_true_2 in H by done.
    destruct s as [s|]; [destruct (negb _)|]; done. }
  split; [|done].
  repeat case_match; simplify_eq; done.
Qed.

Lemma CommandClass_nested_ind (P : CommandClass → Prop) :
  (∀ cn e hook opts, Forall P (declared opts) → P (mkClass cn e hook opts)) →
  ∀ cls, P cls.
Proof.
  intros step. fix IH 1. intros [cn e hook opts]. apply step.
  destruct opts as [? ? ? ? ? ? [[? [cs|]]|] ?]; try apply Forall_nil_2.
  change (Forall P cs).
  induction cs as [|Sub cs IHcs]; constructor; [apply IH | apply IHcs].
Qed.

Lemma cbind_inr {A B} (m : Ctor A) (k : A → Ctor B) h b h' :
  cbind m k h = (inr b, h') →
  ∃ a h1, m h = (inr a, h1) ∧ k a h1 = (inr b, h').
Proof.
  unfold cbind. destruct (m h) as [[e|a] h1]; [done|]. eauto.
Qed.

Lemma new_inv d cls a h c h' :
  new d cls a h = (inr c, h') →
  objId c = nextObj h
  ∧ addon c = a
  ∧ options c = merge defaultOptions (superOptions cls)
  ∧ shouldDispatch c = shouldDispatchHook cls
  ∧ usage c = ∅
  ∧ _sweepInterval c = None
  ∧ ¬ (bucket (limit (options c)) <= 0%Z)%num
  ∧ mapM (instantiate (new (S d)) a) (declared (superOptions cls))
         {| nextObj := S (nextObj h);
            constructions := constructions h
              ++ [mkConstruction d (className cls) (nextObj h)] |}
    = (inr (instantiatedSubcommands c), h').
Proof.
  rewrite new_unfold. intros H.
  apply cbind_inr in H as (id & h1 & Ha & H).
  unfold alloc in Ha. simplify_eq.
  unfold constructor, constructor_with in H.
  apply cbind_inr in H as ([] & h2 & Hc & H).
  apply checkOptions_ok in Hc as [-> Hb].
  apply cbind_inr in H as (subs & h3 & Hs & H).
  unfold cret in H. simplify_eq. simpl. done.
Qed.








Example parent_constructed :
  new 0 Examples.Parent Examples.strictAddon emptyHeap
  = (inr Examples.parent, Examples.parentHeap).
Proof. reflexivity. Qed.

Example badFlag_throws :
  (new 0 Examples.BadFlag Examples.strictAddon emptyHeap).1
  = inl (mkNebulaError "subcommands must have isSubcommand set to true").
Proof. reflexivity. Qed.

Example badBase_throws :
  (new 0 Examples.BadBase Examples.strictAddon emptyHeap).1
  = inl (mkNebulaError "subcommands must inherit the Command structure").
Proof. reflexivity. Qed.

(** *** Failure *)

Lemma mapM_fails {A B} (f : A → Ctor B) (l : list A) (x : A) :
  x ∈ l →
  (∀ h, ∃ e h', f x h = (inl e, h')) →
  ∀ h, ∃ e h', mapM f l h = (inl e, h').
Proof.
  intros Hx Hf. induction l as [|y l IH]; intros h; [by inversion Hx|].
  simpl. unfold cbind at 1.
  apply elem_of_cons in Hx as [<-|Hx].
  - destruct (Hf h) as (e & h' & ->). eauto.
  - destruct (f y h) as [[e|b] h1]; [eauto|].
    unfold cbind at 1. destruct (IH Hx h1) as (e & h' & ->). eauto.
Qed.

Lemma instantiate_fails d a Sub :
  extendsCommand Sub = false ∨ opt_isSubcommand (superOptions Sub) ≠ Some true →
  ∀ h, ∃ e h', instantiate (new d) a Sub h = (inl e, h').
Proof.
  intros Hbad h. unfold instantiate.
  destruct (extendsCommand Sub) eqn:Hext; simpl; [|unfold throw; eauto].
  destruct Hbad as [|Hflag]; [done|].
  unfold cbind. destruct (new d Sub a h) as [[e|checked] h1] eqn:Hn; [eauto|].
  apply new_inv in Hn as (_ & _ & -> & _). simpl.
  destruct (opt_isSubcommand (superOptions Sub)) as [[]|]; simpl;
    try done; unfold throw; eauto.
Qed.

(** C6.  If the declared subcommands of a class contain a class that does
    not extend [Command], or one whose options do not set [isSubcommand] to
    true, then [new] on the parent class throws a [NebulaError]: no command
    instance is returned, so no message can reach it. *)
Theorem C6_invalid_subcommand_throws d cls a h Sub :
  Sub ∈ declared (superOptions cls) →
  extendsCommand Sub = false ∨ opt_isSubcommand (superOptions Sub) ≠ Some true →
  ∃ message, (new d cls a h).1 = inl (mkNebulaError message).
Proof.
  intros Hin Hbad. rewrite new_unfold. unfold declared in Hin.
  unfold cbind at 1, alloc at 1.
  unfold constructor, constructor_with, cbind at 1.
  destruct (checkOptions _ _) as [[[message]|[]] h1]; [simpl; eauto|].
  unfold cbind at 1.
  destruct (mapM_fails (instantiate (new (S d)) a) _ Sub Hin
              (instantiate_fails (S d) a Sub Hbad) h1) as ([message] & h2 & ->).
  simpl. eauto.
Qed.

Lemma C6_invalid_subcommand_throws_witness :
  ∃ message,
    (new 0 Examples.BadFlag Examples.strictAddon emptyHeap).1
    = inl (mkNebulaError message).
Proof.
  apply (C6_invalid_subcommand_throws 0 Examples.BadFlag Examples.strictAddon
           emptyHeap Examples.Unflagged).
  - unfold declared. simpl. set_solver.
  - right. simpl. discriminate.
Defined.

(** *** The pairs of constructions *)





End CommandConstruction.

(** ** The ledger over the life of a command *)

Section CommandLedger.
Import Command.
Local Open Scope Z_scope.

Implicit Types (w : World) (c : Command) (message : Message).

(** With a bucket maximum that is the integer [B], the invariant reads on
    the integers. *)
Lemma bounded_integer w (B : Z) :
  (bucket (limit (options (this w))) == B)%num →
  bounded w ↔ ∀ id bucket0 time0,
                usage (this w) !! id = Some (bucket0, time0) →
                1 ≤ bucket0 ≤ B.
Proof.
  intros HB.
  assert (E : ∀ bucket0,
    (Number.ofZ bucket0 <= bucket (limit (options (this w))))%num
    ↔ bucket0 ≤ B).
  { intros bucket0. by rewrite <- le_ofZ, (le_strictEq_r _ _ _ HB). }
  unfold bounded. split; intros H id bucket0 time0 Hid;
    specialize (H id bucket0 time0 Hid); rewrite E in *; lia.
Qed.

Lemma allowUsage_bounded currTime message w (B : Z) :
  (bucket (limit (options (this w))) == B)%num →
  1 ≤ B →
  bounded w →
  bounded (allowUsage currTime message w).2.
Proof.
  intros HB Hmax Hw.
  destruct (decide (time (limit (options (this w))) == 0)%num) as [Ht|Ht];
    [by rewrite allowUsage_disabled|].
  destruct (allowUsage_view currTime message w Ht) as [Ho V].
  apply (bounded_integer _ B); [by rewrite Ho|].
  rewrite (bounded_integer _ B HB) in Hw.
  intros id bucket1 time1.
  destruct (usage (this w) !! scopeId (this w) message)
    as [[bucket0 time0]|] eqn:Hu.
  - destruct (decide (Number.ofZ (currTime - time0) > _)%num);
      [|destruct (decide (Number.ofZ bucket0 == _)%num) as [|Hne]].
    + destruct V as [_ ->]. rewrite lookup_insert.
      case_decide; [intros [= <- <-]; lia | apply Hw].
    + destruct V as [_ ->]. apply Hw.
    + destruct V as [_ ->]. rewrite lookup_insert.
      case_decide; [intros [= <- <-] | apply Hw].
      apply Hw in Hu.
      assert (bucket0 ≠ B); [|lia].
      intros ->. apply Hne. by apply strictEq_sym.
  - destruct V as [_ ->]. rewrite lookup_insert.
    case_decide; [intros [= <- <-]; lia | apply Hw].
Qed.

Lemma sweep_bounded currTime w :
  bounded w → bounded (_sweep currTime w).2.
Proof.
  intros Hw id bucket0 time0.
  destruct (sweep_view currTime w) as (-> & -> & _).
  intros [Hu _]%map_lookup_filter_Some. by eapply Hw.
Qed.

Lemma runOp_options op w :
  options (this (runOp op w)) = options (this w).
Proof.
  destruct op as [currTime message|currTime]; simpl.
  - apply allowUsage_frame.
  - apply sweep_view.
Qed.

Lemma runOps_bounded ops w (B : Z) :
  (bucket (limit (options (this w))) == B)%num →
  1 ≤ B →
  bounded w →
  bounded (runOps ops w)
  ∧ options (this (runOps ops w)) = options (this w).
Proof.
  revert w. induction ops as [|op ops IH]; intros w HB Hmax Hw; [done|].
  simpl. destruct (IH (runOp op w)) as [Hb Ho].
  - by rewrite runOp_options.
  - done.
  - destruct op; simpl;
      [by apply (allowUsage_bounded _ _ _ B) | by apply sweep_bounded].
  - split; [done|]. by rewrite Ho, runOp_options.
Qed.

(** The constructor refuses a bucket that is not over 0, so a bucket maximum
    that is an integer is at least 1. *)
Lemma integer_bucket_positive x (B : Z) :
  ¬ (x <= 0)%num → (x == B)%num → 1 ≤ B.
Proof.
  intros Hpos HB. destruct (decide (1 ≤ B)) as [|Hlt]; [done|].
  exfalso. apply Hpos. rewrite (le_strictEq_l _ _ _ HB).
  apply (le_ofZ B 0). lia.
Qed.

Lemma allowUsage_denied currTime message w :
  (allowUsage currTime message w).1 = false →
  (allowUsage currTime message w).2 = w.
Proof.
  destruct (decide (time (limit (options (this w))) == 0)%num) as [Ht|Ht];
    [by rewrite allowUsage_disabled|].
  destruct (allowUsage_view currTime message w Ht) as [_ V].
  destruct (usage (this w) !! scopeId (this w) message) as [[bucket0 time0]|].
  - destruct (decide (Number.ofZ (currTime - time0) > _)%num);
      [|destruct (decide (Number.ofZ bucket0 == _)%num)];
      destruct V as [V1 V2]; congruence.
  - destruct V as [V1 V2]; congruence.
Qed.

(** C8, as the specification states it, fails: the constructor accepts a
    bucket maximum of 1.5, the count of an entry, which is an integer, never
    equals it, and no call is denied; after four calls within the window the
    entry holds the count 4. *)
Lemma C8_counterexample :
  (new 0 Examples.Fractional Examples.strictAddon emptyHeap).1
  = inr Examples.fractional
  ∧ let w := runOps [CallAllowUsage 0 Examples.aMessage;
                     CallAllowUsage 1 Examples.aMessage;
                     CallAllowUsage 2 Examples.aMessage;
                     CallAllowUsage 3 Examples.aMessage]
               (initWorld Examples.fractional) in
    usage (this w) !! "u1" = Some (4, 3)
    ∧ ¬ (Number.ofZ 4 <= bucket (limit (options Examples.fractional)))%num
    ∧ (allowUsages [0; 1; 2; 3] Examples.aMessage
         (initWorld Examples.fractional)).1 = [true; true; true; true].
Proof.
  split; [reflexivity|]. split; [reflexivity|]. split; [|reflexivity].
  intros [H|H]; vm_compute in H; done.
Qed.

(** C8 (amended).  For a constructed command whose bucket maximum is an
    integer, whatever [allowUsage] calls and sweeps it has gone through,
    every entry of its ledger has a count between 1 and the maximum; and for
    every constructed command a call that is denied leaves the world, ledger
    included, as it was. *)
Theorem C8_bucket_within_bounds d cls a h c h' ops :
  new d cls a h = (inr c, h') →
  let w := runOps ops (initWorld c) in
  (∀ B : Z,
     (bucket (limit (options c)) == B)%num →
     ∀ id bucket0 time0,
       usage (this w) !! id = Some (bucket0, time0) →
       1 ≤ bucket0 ≤ B)
  ∧ (∀ currTime message,
       (allowUsage currTime message w).1 = false →
       (allowUsage currTime message w).2 = w).
Proof.
  intros (_ & _ & _ & _ & Hu & _ & Hpos & _)%new_inv w.
  split; [|intros; by apply allowUsage_denied].
  intros B HB. subst w.
  pose proof (integer_bucket_positive _ _ Hpos HB) as Hmax.
  destruct (runOps_bounded ops (initWorld c) B) as [Hb Ho]; [done | done | |].
  - intros id bucket0 time0. simpl. by rewrite Hu, lookup_empty.
  - apply (bounded_integer _ B); [by rewrite Ho | done].
Qed.

Lemma C8_bucket_within_bounds_witness :
  let w := runOps [CallAllowUsage 0 Examples.aMessage;
                   CallAllowUsage 1 Examples.aMessage;
                   CallSweep 2;
                   CallAllowUsage 3 Examples.aMessage]
             (initWorld Examples.limited) in
  (∀ id bucket0 time0,
     usage (this w) !! id = Some (bucket0, time0) → 1 ≤ bucket0 ≤ 2)
  ∧ (allowUsage 3 Examples.aMessage w).2 = w.
Proof.
  intros w.
  destruct (C8_bucket_within_bounds 0 Examples.Limited Examples.strictAddon
              emptyHeap Examples.limited
              (new 0 Examples.Limited Examples.strictAddon emptyHeap).2
              [CallAllowUsage 0 Examples.aMessage;
               CallAllowUsage 1 Examples.aMessage;
               CallSweep 2;
               CallAllowUsage 3 Examples.aMessage] eq_refl)
    as [Hb Hd].
  split; [apply (Hb 2); reflexivity | apply Hd; reflexivity].
Defined.

(** *** The sweep interval *)

Lemma timed_entry w id e :
  timed w → usage (this w) !! id = Some e →
  ∃ handle, _sweepInterval (this w) = Some handle
            ∧ timers w = {[handle := 30000]}.
Proof.
  intros [Hiff Htm] Hid.
  destruct (_sweepInterval (this w)) as [handle|]; [eauto|].
  rewrite (proj1 Hiff eq_refl) in Hid. by rewrite lookup_empty in Hid.
Qed.

Lemma timed_insert w c' id e handle :
  _sweepInterval c' = Some handle →
  usage c' = <[id := e]> (usage (this w)) →
  timed {| this := c'; timers := {[handle := 30000]};
           nextTimer := nextTimer w; trace := trace w |}.
Proof.
  intros Hs Hu. split; simpl; [|by rewrite Hs].
  rewrite Hs, Hu. split; [done|]. intros []%insert_non_empty.
Qed.

Lemma allowUsage_timed currTime message w :
  timed w → timed (allowUsage currTime message w).2.
Proof.
  intros Hw.
  destruct (decide (time (limit (options (this w))) == 0)%num) as [Ht|Ht];
    [by rewrite allowUsage_disabled|].
  destruct (usage (this w) !! scopeId (this w) message)
    as [[bucket0 time0]|] eqn:Hu.
  - destruct (timed_entry _ _ _ Hw Hu) as (handle & Hs & Htm).
    destruct (decide (Number.ofZ (currTime - time0)
                      > time (limit (options (this w))))%num);
      [|destruct (decide (Number.ofZ bucket0
                          == bucket (limit (options (this w))))%num)].
    + erewrite allowUsage_reset by done. simpl. rewrite Htm.
      by eapply timed_insert.
    + by erewrite allowUsage_deny.
    + erewrite allowUsage_increment by done. simpl. rewrite Htm.
      by eapply timed_insert.
  - rewrite allowUsage_create by done. simpl.
    destruct Hw as [Hiff Htm].
    destruct (_sweepInterval (this w)) as [handle|] eqn:Hs.
    + rewrite Htm. eapply (timed_insert w); [exact Hs | done].
    + rewrite Htm, insert_empty.
      pose proof (timed_insert w
        (set_sweepInterval (Some (nextTimer w))
           (set_usage (<[scopeId (this w) message := (1, currTime)]>
                         (usage (this w))) (this w)))
        (scopeId (this w) message) (1, currTime) (nextTimer w)
        eq_refl eq_refl) as T.
      split; [apply T|]. simpl. done.
Qed.

Lemma sweep_timed currTime w : timed w → timed (_sweep currTime w).2.
Proof.
  intros [Hiff Htm].
  destruct (sweep_view currTime w) as (_ & Hu & _ & _ & Hs).
  unfold timed.
  destruct (decide (usage (this (_sweep currTime w).2) = ∅)) as [He|Hne];
    destruct Hs as [Hs ->]; rewrite Hs.
  - split; [by rewrite He|].
    rewrite Htm. destruct (_sweepInterval (this w)); [|done].
    apply delete_singleton_eq.
  - split; [|done].
    split; [|done]. intros Hnone. apply Hiff in Hnone.
    rewrite Hu, Hnone, map_filter_empty in Hne. done.
Qed.

Lemma composeInhibitors_timed currTime message w :
  timed w → timed (composeInhibitors currTime message w).2.
Proof.
  intros Hw. pose proof (allowUsage_timed currTime message w Hw) as Hu.
  rewrite composeInhibitors_eq. cbv zeta.
  repeat case_match; exact Hw || exact Hu.
Qed.

Lemma composeInhibitors_options currTime message w :
  options (this (composeInhibitors currTime message w).2) = options (this w).
Proof.
  destruct (allowUsage_frame currTime message w) as [Ho _].
  rewrite composeInhibitors_eq. cbv zeta.
  repeat case_match; done.
Qed.

Lemma reachable_timed c w :
  usage c = ∅ → _sweepInterval c = None →
  reachable c w →
  timed w ∧ options (this w) = options c.
Proof.
  intros Hu Hs. revert w.
  apply (rtc_ind_r (λ w, timed w ∧ options (this w) = options c));
    [|intros w1 w2 Hr Hstep [IHt IHo]].
  - split; [|done]. split; simpl; rewrite Hs; [by rewrite Hu | done].
  - inversion Hstep as [currTime message w0|handle ms currTime w0 Hlive];
      subst.
    + split; [by apply composeInhibitors_timed|].
      by rewrite composeInhibitors_options.
    + split; [by apply sweep_timed|].
      destruct (sweep_view currTime w1) as [-> _]. done.
Qed.

(** C9.  In every world a constructed command can reach:
    - a sweep keeps exactly the entries whose age does not exceed the window;
    - if the sweep leaves the ledger empty, the handle is dropped and no
      timer is left;
    - a timer is live exactly when the ledger has an entry, and it is the
      one whose handle the command stores;
    - with an empty ledger no sweep can happen: the only possible turn is an
      inbound message;
    - a call that creates the first entry starts the interval again. *)
Theorem C9_sweep_and_interval d cls a h c h' w :
  new d cls a h = (inr c, h') →
  reachable c w →
  (∀ currTime id e,
     usage (this (_sweep currTime w).2) !! id = Some e
     ↔ usage (this w) !! id = Some e
       ∧ ¬ (Number.ofZ (currTime - e.2) > time (limit (options c)))%num)
  ∧ (∀ currTime,
       usage (this (_sweep currTime w).2) = ∅ →
       _sweepInterval (this (_sweep currTime w).2) = None
       ∧ timers (_sweep currTime w).2 = ∅)
  ∧ (timers w = ∅ ↔ usage (this w) = ∅)
  ∧ timers w = match _sweepInterval (this w) with
               | Some handle => {[handle := 30000]}
               | None => ∅
               end
  ∧ (usage (this w) = ∅ →
     ∀ w', step w w' →
           ∃ currTime message, w' = (composeInhibitors currTime message w).2)
  ∧ (∀ currTime message,
       usage (this w) = ∅ →
       usage (this (allowUsage currTime message w).2) ≠ ∅ →
       _sweepInterval (this (allowUsage currTime message w).2)
       = Some (nextTimer w)
       ∧ timers (allowUsage currTime message w).2
         = {[nextTimer w := 30000]}).
Proof.
  intros (_ & _ & _ & _ & Hu & Hs & _)%new_inv Hr.
  destruct (reachable_timed c w Hu Hs Hr) as [[Hiff Htm] Ho].
  assert (Htimers : timers w = ∅ ↔ usage (this w) = ∅).
  { rewrite <- Hiff, Htm. destruct (_sweepInterval (this w)); [|done].
    split; [|done]. intros He. by apply map_non_empty_singleton in He. }
  split_and!.
  - intros currTime id e.
    destruct (sweep_view currTime w) as (_ & -> & _).
    rewrite map_lookup_filter_Some, Ho. done.
  - intros currTime He.
    destruct (sweep_timed currTime w) as [Hiff' Htm']; [done|].
    apply Hiff' in He. by rewrite Htm', He.
  - exact Htimers.
  - exact Htm.
  - intros He w' Hstep.
    inversion Hstep as [currTime message w0|handle ms currTime w0 Hlive];
      subst; [eauto|].
    apply Htimers in He. by rewrite He, lookup_empty in Hlive.
  - intros currTime message He Hne.
    destruct (decide (time (limit (options (this w))) == 0)%num) as [Ht|Ht];
      [by rewrite allowUsage_disabled in Hne|].
    rewrite allowUsage_create by (done || by rewrite He, lookup_empty).
    rewrite (proj2 Hiff He). simpl.
    by rewrite (proj2 Htimers He), insert_empty.
Qed.

Lemma C9_sweep_and_interval_witness :
  let w := (composeInhibitors 0 Examples.aMessage
              (initWorld Examples.limited)).2 in
  timers w = {[0%nat := 30000]}
  ∧ _sweepInterval (this (_sweep 6000 w).2) = None
  ∧ timers (_sweep 6000 w).2 = ∅.
Proof.
  intros w.
  destruct (C9_sweep_and_interval 0 Examples.Limited Examples.strictAddon
              emptyHeap Examples.limited
              (new 0 Examples.Limited Examples.strictAddon emptyHeap).2 w
              eq_refl
              (rtc_once _ _
                 (step_message 0 Examples.aMessage
                    (initWorld Examples.limited))))
    as (_ & Hempty & _ & Htimers & _).
  split; [exact Htimers|]. apply Hempty. reflexivity.
Defined.

End CommandLedger.

(** ** The validator *)

Section ValidatorCoercion.
Import Validator.

Implicit Types (schema pre post : Schema) (values : list string).

(** As long as tokens are present and coerce, the first loop goes on. *)
Lemma coercePass_app pre rest i values valueStore :
  (∀ j kv, pre !! j = Some kv →
           ∃ raw, values !! (i + j) = Some raw ∧ is_Some (coerce kv.2 raw)) →
  ∃ valueStore',
    coercePass (pre ++ rest) i values valueStore
    = ((coercePass rest (i + length pre) values valueStore').1,
       (Coerce <$> pre.*1)
         ++ (coercePass rest (i + length pre) values valueStore').2).
Proof.
  revert i valueStore.
  induction pre as [|[k v] pre IH]; intros i valueStore Hpre; simpl.
  - exists valueStore. rewrite Nat.add_0_r.
    by destruct (coercePass rest i values valueStore).
  - destruct (Hpre 0 (k, v) eq_refl) as (raw & Hraw & [coerced Hc]).
    rewrite Nat.add_0_r in Hraw. simpl in Hc. rewrite Hraw, Hc.
    destruct (IH (S i)
                (<[k := {| value := coerced; type := v_type v;
                           rawValue := raw |}]> valueStore))
      as [valueStore' ->].
    { intros j kv Hj. destruct (Hpre (S j) kv Hj) as (raw' & Hraw' & Hc').
      exists raw'. split; [|done]. by rewrite <- Hraw', Nat.add_succ_r. }
    exists valueStore'. by rewrite Nat.add_succ_r.
Qed.

(** C2, as the specification states it, fails twice.  With an optional [a]
    declared before a mandatory [b] and no token at all, [b]'s token is
    undefined and yet the object returned is [{a: null}], not an error keyed
    by [b].  And when the error is returned, its violation carries the
    validator's type, here [string], not a kind [required]. *)
Lemma C2_counterexample :
  let schema := [("a", Examples.stringValidator (Some true));
                 ("b", Examples.stringValidator None)] in
  (validate defaultOptions Examples.aMessage [] schema).1
    = Returned {["a" := Null]}
  ∧ (∀ errs, (validate defaultOptions Examples.aMessage [] schema).1
             ≠ Returned {["b" := Errors errs]})
  ∧ (validate defaultOptions Examples.aMessage []
       [("b", Examples.stringValidator None)]).1
    = Returned {["b" := Errors [mkValidationError None "b" "string"]]}
  ∧ err_type (mkValidationError None "b" "string") ≠ "required".
Proof.
  simpl. split_and!; done.
Qed.

(** C2 (amended).  If the first field whose token is undefined is not
    optional, and the token of every earlier field coerces, [validate]
    returns an object with that field as its only key, mapped to a list of
    exactly one violation, which carries the undefined value, the field and
    the validator's type. *)
Theorem C2_missing_required options message values pre key validator post :
  (∀ j kv, pre !! j = Some kv →
           ∃ raw, values !! j = Some raw ∧ is_Some (coerce kv.2 raw)) →
  values !! length pre = None →
  flags_optional validator ≠ Some true →
  validate options message values (pre ++ (key, validator) :: post)
  = (Returned
       {[key := Errors [mkValidationError None key (v_type validator)]]},
     Coerce <$> pre.*1).
Proof.
  intros Hpre Hmiss Hopt. unfold validate.
  destruct (coercePass_app pre ((key, validator) :: post) 0 values ∅ Hpre)
    as [valueStore' ->].
  simpl. rewrite Hmiss.
  destruct (flags_optional validator) as [[]|]; simpl;
    by rewrite ?app_nil_r.
Qed.

Lemma C2_missing_required_witness :
  validate defaultOptions Examples.aMessage ["7"]
    [("n", Examples.numberValidator None);
     ("s", Examples.stringValidator (Some false))]
  = (Returned {["s" := Errors [mkValidationError None "s" "string"]]},
     [Coerce "n"]).
Proof.
  apply (C2_missing_required defaultOptions Examples.aMessage ["7"]
           [("n", Examples.numberValidator None)] "s"
           (Examples.stringValidator (Some false)) []).
  - intros [|j] kv Hj; [|done]. injection Hj as <-.
    exists "7". split; [reflexivity|]. simpl. eauto.
  - reflexivity.
  - discriminate.
Defined.

(** C3, as the specification states it, fails: when a field before the
    missing optional one does not coerce, the call returns that field's
    error and never reaches the optional field. *)
Lemma C3_counterexample :
  let schema := [("a", Examples.numberValidator None);
                 ("b", Examples.stringValidator (Some true))] in
  ["x"] !! 1%nat = @None string
  ∧ validate defaultOptions Examples.aMessage ["x"] schema
    = (Returned {["a" := Errors [mkValidationError (Some "x") "a" "number"]]},
       [Coerce "a"])
  ∧ (validate defaultOptions Examples.aMessage ["x"] schema).1
    ≠ Returned {["b" := Null]}.
Proof.
  simpl. split_and!; done.
Qed.

(** C3 (amended).  If the first field whose token is undefined is optional,
    and the token of every earlier field coerces, [validate] returns at once
    an object mapping only that field to null: the only calls made are the
    coercions of the earlier fields, so no later field is coerced and no
    rule runs. *)
Theorem C3_missing_optional options message values pre key validator post :
  (∀ j kv, pre !! j = Some kv →
           ∃ raw, values !! j = Some raw ∧ is_Some (coerce kv.2 raw)) →
  values !! length pre = None →
  flags_optional validator = Some true →
  let r := validate options message values (pre ++ (key, validator) :: post) in
  r.1 = Returned {[key := Null]}
  ∧ r.2 = Coerce <$> pre.*1
  ∧ (∀ k n, Rule k n ∉ r.2)
  ∧ (∀ j kv, post !! j = Some kv → kv.1 ∉ pre.*1 → Coerce kv.1 ∉ r.2).
Proof.
  intros Hpre Hmiss Hopt r. subst r. unfold validate.
  destruct (coercePass_app pre ((key, validator) :: post) 0 values ∅ Hpre)
    as [valueStore' ->].
  simpl. rewrite Hmiss, Hopt. simpl. rewrite app_nil_r.
  split_and!; try done.
  - intros k n (c & Hc & _)%list_elem_of_fmap. done.
  - intros j kv _ Hfresh (k & [= Hk] & Hin)%list_elem_of_fmap.
    by subst.
Qed.

Lemma C3_missing_optional_witness :
  validate defaultOptions Examples.aMessage ["7"]
    [("n", Examples.numberValidator None);
     ("s", Examples.stringValidator (Some true));
     ("t", Examples.stringValidator None)]
  = (Returned {["s" := Null]}, [Coerce "n"]).
Proof.
  destruct (C3_missing_optional defaultOptions Examples.aMessage ["7"]
              [("n", Examples.numberValidator None)] "s"
              (Examples.stringValidator (Some true))
              [("t", Examples.stringValidator None)])
    as (H1 & H2 & _).
  - intros [|j] kv Hj; [|done]. injection Hj as <-.
    exists "7". split; [reflexivity|]. simpl. eauto.
  - reflexivity.
  - reflexivity.
  - apply injective_projections; [exact H1 | exact H2].
Defined.

End ValidatorCoercion.

(** ** The array schema *)

Section ArrayItems.
Import ArraySchema.

Implicit Types (inner : Schema) (options : ValidatorOptions)
  (items : list Value) (σ : Static).

Example oneTwoX_collected :
  ArraySchema_validate Examples.arrayOfNumbers (VArray Examples.oneTwoX)
    Examples.collectAll Examples.noRoot
  = (inr {| value := None;
            errors := [mkValidationError "number" (Some "2")];
            pass := false |},
     {| rootValue := Some (VArray Examples.oneTwoX) |}).
Proof. reflexivity. Qed.

(** Nested arrays: the item at index 1 of the item at index 0 is reported
    under the path [0.1]; with the default options the call stops there. *)
Example nested_path :
  (ArraySchema_validate Examples.arrayOfArrays
     (VArray [VArray [VNumber 1%Z; VString "x"; VString "y"]; VArray [VNull]])
     {| shouldAbortEarly := None; path := None; parent := None |}
     Examples.noRoot).1
  = inr {| value := None;
           errors := [mkValidationError "number" (Some "0.1")];
           pass := false |}.
Proof. reflexivity. Qed.

(** The loop when it visits every item: either it does not abort, or no
    item fails. *)
Lemma validateItems_all inner options array abort items i acc σ rs σ' :
  itemRuns inner options array i items σ rs σ' →
  abort = false ∨ Forall (λ r, pass r = true) rs →
  validateItems inner options array abort items i acc σ
  = (inr (Done {| value := value acc;
                  errors := errors acc ++ concat (errors <$> rs);
                  pass := pass acc && forallb pass rs |}), σ').
Proof.
  intros Hruns. revert acc.
  induction Hruns as [i σ|i item rest σ r σ1 rs σ2 Hcall _ IH];
    intros acc Hall; simpl.
  - unfold ret. rewrite app_nil_r, andb_true_r. by destruct acc.
  - unfold bind. rewrite Hcall. destruct (pass r) eqn:Hr; simpl.
    + rewrite IH; simpl.
      * by rewrite app_assoc.
      * destruct Hall as [|Hall]; [by left|right]. by inversion Hall.
    + destruct Hall as [->|Hall]; [|inversion Hall; congruence].
      rewrite IH by (by left). simpl.
      by rewrite app_assoc, andb_false_r.
Qed.

(** The loop when it aborts at the first item that fails. *)
Lemma validateItems_abort inner options array before item after i acc
    σ rs σ1 r σ2 :
  itemRuns inner options array i before σ rs σ1 →
  Forall (λ r, pass r = true) rs →
  validate inner item (itemOptions options array (i + length before)) σ1
  = (inr r, σ2) →
  pass r = false →
  validateItems inner options array true (before ++ item :: after) i acc σ
  = (inr (Return {| value := value acc;
                    errors := errors acc ++ concat (errors <$> rs) ++ errors r;
                    pass := false |}), σ2).
Proof.
  intros Hruns. revert acc.
  induction Hruns as [i σ|i x rest σ r0 σ0 rs σ1 Hcall _ IH];
    intros acc Hall Hitem Hfail; simpl.
  - rewrite Nat.add_0_r in Hitem. unfold bind. by rewrite Hitem, Hfail.
  - inversion Hall as [|? ? Hr0 Hrs]; subst.
    unfold bind. rewrite Hcall, Hr0. simpl.
    rewrite IH; simpl; [by rewrite <- !app_assoc | done | | done].
    replace (S (i + length rest)) with (i + length (x :: rest))
      by (simpl; lia).
    done.
Qed.

(** C5.  Take an array schema with an inner schema and a value whose base
    validation passes with an array.  Item [i] is validated against the
    inner schema under the path [i], or [path.i] when the array itself is
    validated under [path].  When every item is visited (collecting all, or
    nothing fails) the errors of all the items are returned together and the
    result passes exactly when all items pass; when aborting early, the call
    returns at the first item that fails, with the errors met so far and
    [pass = false]. *)
Theorem C5_array_items self inner v options σ base σ0 items :
  _schema self = Some inner →
  Schema_validate (hooksOf self) v options σ = (inr base, σ0) →
  pass base = true →
  value base = Some (VArray items) →
  let array := VArray items in
  let σ1 := enterLoop options array σ0 in
  let abort := default true (shouldAbortEarly options) in
  (∀ i, path (itemOptions options array i)
        = Some match path options with
               | None => pretty i
               | Some p => p +:+ "." +:+ pretty i
               end)
  ∧ (∀ rs σ2,
       itemRuns inner options array 0 items σ1 rs σ2 →
       abort = false ∨ Forall (λ r, pass r = true) rs →
       ArraySchema_validate self v options σ
       = (inr {| value := if forallb pass rs then Some array else None;
                 errors := concat (errors <$> rs);
                 pass := forallb pass rs |}, σ2))
  ∧ (∀ before item after rs σ2 r σ3,
       abort = true →
       items = before ++ item :: after →
       itemRuns inner options array 0 before σ1 rs σ2 →
       Forall (λ r, pass r = true) rs →
       validate inner item (itemOptions options array (length before)) σ2
       = (inr r, σ3) →
       pass r = false →
       ArraySchema_validate self v options σ
       = (inr {| value := None;
                 errors := concat (errors <$> rs) ++ errors r;
                 pass := false |}, σ3)).
Proof.
  intros Hinner Hbase Hpass Hvalue array σ1 abort.
  assert (Henter :
    (match path options with
     | None => setValue array
     | Some _ => ret tt
     end) σ0 = (inr tt, σ1)).
  { subst σ1. unfold enterLoop. by destruct (path options). }
  split_and!.
  - done.
  - intros rs σ2 Hruns Hall.
    unfold ArraySchema_validate. unfold bind at 1.
    rewrite Hbase, Hinner, Hpass, Hvalue. simpl.
    unfold bind at 1. fold array. rewrite Henter.
    unfold bind at 1.
    rewrite (validateItems_all _ _ _ _ _ _ _ _ _ _ Hruns Hall). simpl.
    by destruct (forallb pass rs).
  - intros before item after rs σ2 r σ3 Habort -> Hruns Hall Hitem Hfail.
    unfold ArraySchema_validate. unfold bind at 1.
    rewrite Hbase, Hinner, Hpass, Hvalue. simpl.
    unfold bind at 1. fold array. rewrite Henter.
    unfold bind at 1. fold abort. rewrite Habort.
    by rewrite (validateItems_abort _ _ _ _ _ _ _ _ _ _ _ _ _
                  Hruns Hall Hitem Hfail).
Qed.

Lemma C5_array_items_witness :
  ArraySchema_validate Examples.arrayOfNumbers (VArray Examples.oneTwoX)
    Examples.collectAll Examples.noRoot
  = (inr {| value := None;
            errors := [mkValidationError "number" (Some "2")];
            pass := false |},
     {| rootValue := Some (VArray Examples.oneTwoX) |}).
Proof.
  destruct (C5_array_items Examples.arrayOfNumbers Examples.numberSchema
              (VArray Examples.oneTwoX) Examples.collectAll Examples.noRoot
              {| value := Some (VArray Examples.oneTwoX); errors := [];
                 pass := true |}
              Examples.noRoot Examples.oneTwoX
              eq_refl eq_refl eq_refl eq_refl)
    as (_ & Hall & _).
  apply (Hall [ {| value := Some (VNumber 1%Z); errors := []; pass := true |};
                {| value := Some (VNumber 2%Z); errors := []; pass := true |};
                {| value := None;
                   errors := [mkValidationError "number" (Some "2")];
                   pass := false |} ]).
  - repeat (eapply runs_cons; [reflexivity|]). apply runs_nil.
  - by left.
Defined.

End ArrayItems.

(** * Further properties *)

(** ** The constructor *)

Section ConstructorChecks.
Import Command.
Local Open Scope Z_scope.

Implicit Types (c : Command) (cls : CommandClass) (h : Heap).

Lemma checkOptions_heap options h : (checkOptions options h).2 = h.
Proof.
  unfold checkOptions, cbind, throw, cret.
  repeat (case_bool_decide || case_match); simplify_eq/=; done.
Qed.

Lemma elem_limitScopes (s : string) :
  s ∈ limitScopes ↔ s = "user" ∨ s = "guild".
Proof.
  unfold limitScopes. rewrite !elem_of_cons, elem_of_nil. tauto.
Qed.

Lemma cbind_unit_ok (m k : Ctor unit) h :
  (cbind m (λ _, k) h).1 = inr tt
  ↔ (m h).1 = inr tt ∧ (k (m h).2).1 = inr tt.
Proof.
  unfold cbind. destruct (m h) as [[e|[]] h1]; simpl; [|tauto].
  split; [done | by intros [? _]].
Qed.

(** The heap a check is run in does not matter to it. *)
Local Ltac forget_heaps :=
  repeat match goal with
         | |- context [(?m ?h0).2] =>
             is_var h0; generalize ((m h0).2); intro
         end.

Lemma checkOptions_valid options h :
  (checkOptions options h).1 = inr tt → validOptions options.
Proof.
  unfold validOptions, checkOptions.
  destruct options as [nm al ds ns isb lim subs perm]; simpl.
  destruct nm as [nm|]; simpl; [|unfold throw; simpl; intros [=]].
  rewrite !cbind_unit_ok.
  intros (Hlim & Hsubs & Hperm). split; [done|]. split_and!.
  - intros l ->. unfold throw, cret in Hlim. destruct l as [b t s]; simpl in *.
    destruct s as [s|]; [case_bool_decide as Hs; simpl in Hlim; [|done]|];
      (destruct b as [b|]; [case_bool_decide; [done|]|]);
      (destruct t as [t|]; [case_bool_decide; [done|]|done]);
      (split_and!; [| |by exists t]);
      try (intros ? [= <-]); try done;
      by apply elem_limitScopes.
  - intros sc ->. revert Hsubs.
    forget_heaps.
    destruct sc as [? [[|Sub rest]|]]; simpl; unfold throw; try done. eauto.
  - intros p ->. revert Hperm.
    forget_heaps.
    destruct p as [? [lvl|]]; simpl; unfold throw; done.
Qed.

(** A class whose construction succeeds passed valid options to [super]. *)
Lemma new_valid d cls a h c h' :
  new d cls a h = (inr c, h') → validOptions (superOptions cls).
Proof.
  rewrite new_unfold. intros H.
  apply cbind_inr in H as (id & h1 & _ & H).
  unfold constructor, constructor_with in H.
  apply cbind_inr in H as ([] & h2 & Hc & _).
  apply (checkOptions_valid _ h1). by rewrite Hc.
Qed.

(** X2.  What the constructor guarantees of the limit of a constructed
    command: a bucket maximum that is not 0 or less, hence at least 1
    whenever it is an integer (a fraction over 0 and not-a-number pass the
    check); a window that is not negative and that is 0, which switches the
    usage gate off, exactly when the class passed no limit options; and a
    scope that is [user] or [guild]. *)
Theorem X2_constructed_limit d cls a h c h' :
  new d cls a h = (inr c, h') →
  let lim := limit (options c) in
  ¬ (bucket lim <= 0)%num
  ∧ (∀ B : Z, (bucket lim == B)%num → 1 ≤ B)
  ∧ ¬ (time lim < 0)%num
  ∧ ((time lim == 0)%num ↔ opt_limit (superOptions cls) = None)
  ∧ (scope lim = "user" ∨ scope lim = "guild").
Proof.
  intros H lim. subst lim.
  pose proof (new_valid _ _ _ _ _ _ H) as (_ & Hlim & _).
  apply new_inv in H as (_ & _ & -> & _ & _ & _ & Hb & _).
  split; [done|]. split; [intros B; by apply integer_bucket_positive|].
  unfold merge; simpl.
  destruct (opt_limit (superOptions cls)) as [l|]; simpl;
    [|split_and!; [rewrite (lt_ofZ 0 0); lia | done | by left]].
  destruct (Hlim l eq_refl) as (Hs & _ & t & -> & Ht). simpl.
  unfold Number.le in Ht. split_and!; [tauto | split; [tauto | done] |].
  destruct (opt_scope l) as [s|]; simpl; [by apply Hs | by left].
Qed.

Lemma X2_constructed_limit_witness :
  (time (limit (options Examples.limited)) == 5000)%num
  ∧ scope (limit (options Examples.limited)) = "user"
  ∧ 1 ≤ 2
  ∧ ((time (limit (options Examples.limited)) == 0)%num
     ↔ opt_limit (superOptions Examples.Limited) = None).
Proof.
  destruct (X2_constructed_limit 0 Examples.Limited Examples.strictAddon
              emptyHeap Examples.limited
              (new 0 Examples.Limited Examples.strictAddon emptyHeap).2
              eq_refl) as (_ & Hint & _ & Hiff & _).
  split_and!; [reflexivity | reflexivity | | exact Hiff].
  apply Hint. reflexivity.
Defined.

Lemma mapM_instantiate_instances d a cs h subs h' :
  mapM (instantiate (new d) a) cs h = (inr subs, h') →
  Forall2 (instanceOf a) cs subs.
Proof.
  revert h subs. induction cs as [|Sub cs IH]; intros h subs H; simpl in H.
  - unfold cret in H. simplify_eq. constructor.
  - apply cbind_inr in H as (sub & h2 & Hi & H).
    apply cbind_inr in H as (rest & h3 & Hm & H).
    unfold cret in H. simplify_eq. constructor; [|by eapply IH].
    unfold instantiate in Hi.
    destruct (extendsCommand Sub) eqn:Hext; simpl in Hi; [|done].
    apply cbind_inr in Hi as (checked & h1 & Hn1 & Hi).
    destruct (isSubcommand (options checked)) eqn:Hflag; simpl in Hi; [|done].
    apply new_inv in Hn1 as (_ & _ & Ho1 & _).
    apply new_inv in Hi as (_ & Ha & Ho & Hh & Hu & Hs & _).
    unfold instanceOf. rewrite Ho, <- Ho1. done.
Qed.

(** X3.  After a successful construction the stored subcommands match the
    declared classes one for one and in order: each class extends
    [Command], and the instance stored for it carries that class's merged
    options with [isSubcommand] true, the parent's addon, the class's
    [shouldDispatch] hook, an empty ledger and no sweep interval. *)
Theorem X3_stored_subcommands d cls a h c h' :
  new d cls a h = (inr c, h') →
  Forall2 (instanceOf a) (commands (subcommands (options c)))
          (instantiatedSubcommands c).
Proof.
  intros H. apply new_inv in H as (_ & _ & -> & _ & _ & _ & _ & Hm).
  by apply mapM_instantiate_instances in Hm.
Qed.

Lemma X3_stored_subcommands_witness :
  Forall2 (instanceOf Examples.strictAddon) [Examples.Child; Examples.Child]
          (instantiatedSubcommands Examples.parent).
Proof.
  apply (X3_stored_subcommands 0 Examples.Parent Examples.strictAddon
           emptyHeap Examples.parent Examples.parentHeap eq_refl).
Defined.

(** [constructionsOf] in terms of the declared classes. *)
Lemma constructionsOf_unfold cls :
  constructionsOf cls
  = S (sum_list ((λ Sub, constructionsOf Sub + constructionsOf Sub)%nat
                   <$> declared (superOptions cls))).
Proof.
  destruct cls as [cn e hook opts]. simpl. f_equal.
  destruct opts as [? ? ? ? ? ? [[? [cs|]]|] ?]; try reflexivity.
  unfold declared; simpl.
  induction cs as [|Sub cs IH]; simpl; [done | by rewrite IH].
Qed.

Lemma mapM_instantiate_count d a cs :
  Forall (λ Sub, ∀ d a h c h', new d Sub a h = (inr c, h') →
                   nextObj h' = (nextObj h + constructionsOf Sub)%nat) cs →
  ∀ h subs h',
    mapM (instantiate (new d) a) cs h = (inr subs, h') →
    nextObj h'
    = (nextObj h
       + sum_list ((λ Sub, constructionsOf Sub + constructionsOf Sub)%nat
                     <$> cs))%nat.
Proof.
  induction 1 as [|Sub cs HSub _ IH]; intros h subs h' H; simpl in H.
  - unfold cret in H. simplify_eq. simpl. lia.
  - apply cbind_inr in H as (sub & h2 & Hi & H).
    apply cbind_inr in H as (rest & h3 & Hm & H).
    unfold cret in H. simplify_eq.
    unfold instantiate in Hi.
    destruct (extendsCommand Sub); simpl in Hi; [|done].
    apply cbind_inr in Hi as (checked & h1 & Hn1 & Hi).
    destruct (isSubcommand (options checked)); simpl in Hi; [|done].
    apply HSub in Hn1. apply HSub in Hi. apply IH in Hm.
    unfold fmap in Hm |- *. simpl. lia.
Qed.

(** X4.  A successful [new] allocates exactly [constructionsOf] objects: one
    for the class itself and, for every declared subcommand class, twice what
    constructing that class allocates. *)
Theorem X4_constructions_counted cls :
  ∀ d a h c h',
    new d cls a h = (inr c, h') →
    nextObj h' = (nextObj h + constructionsOf cls)%nat.
Proof.
  induction cls as [cn e hook opts IH] using CommandClass_nested_ind.
  intros d a h c h' H.
  rewrite constructionsOf_unfold.
  apply new_inv in H as (_ & _ & _ & _ & _ & _ & _ & H). simpl in H.
  apply (mapM_instantiate_count _ _ _ IH) in H.
  simpl in H |- *. unfold fmap in H |- *. lia.
Qed.

Lemma X4_constructions_counted_witness :
  nextObj Examples.parentHeap = 5%nat
  ∧ constructionsOf
      (Examples.parentOf "Root" [Examples.parentOf "Mid" [Examples.Child]])
    = 7%nat.
Proof.
  split; [|reflexivity].
  apply (X4_constructions_counted Examples.Parent 0 Examples.strictAddon
           emptyHeap Examples.parent Examples.parentHeap eq_refl).
Defined.

End ConstructorChecks.

(** ** The usage gate *)

Section UsageGate.
Import Command.
Local Open Scope Z_scope.

Implicit Types (w : World) (c : Command) (message : Message).

(** With the limit enabled, a call acts on the entry of its scope as
    [transition] says and keeps the options. *)
Lemma allowUsage_transition currTime message w :
  ¬ (time (limit (options (this w))) == 0)%num →
  let id := scopeId (this w) message in
  let r := allowUsage currTime message w in
  options (this r.2) = options (this w)
  ∧ r.1 = (transition (limit (options (this w))) currTime
             (usage (this w) !! id)).1
  ∧ usage (this r.2) !! id
    = (transition (limit (options (this w))) currTime
         (usage (this w) !! id)).2.
Proof.
  intros Ht id r. subst r.
  destruct (allowUsage_view currTime message w Ht) as [Ho V].
  fold id in V. split; [done|]. unfold transition.
  destruct (usage (this w) !! id) as [[bucket0 time0]|] eqn:Hu.
  - destruct (decide (Number.ofZ (currTime - time0) > _)%num).
    + rewrite bool_decide_eq_true_2 by done.
      destruct V as [-> ->]. by rewrite lookup_insert_eq.
    + rewrite bool_decide_eq_false_2 by done.
      destruct (decide (Number.ofZ bucket0 == _)%num).
      * rewrite bool_decide_eq_true_2 by done. destruct V as [-> ->]. done.
      * rewrite bool_decide_eq_false_2 by done.
        destruct V as [-> ->]. by rewrite lookup_insert_eq.
  - destruct V as [-> ->]. by rewrite lookup_insert_eq.
Qed.

(** X5.  A call for one scope leaves the entry of every other scope as it
    was. *)
Theorem X5_other_scopes_untouched currTime message w id :
  id ≠ scopeId (this w) message →
  usage (this (allowUsage currTime message w).2) !! id
  = usage (this w) !! id.
Proof.
  intros Hid.
  destruct (decide (time (limit (options (this w))) == 0)%num) as [Ht|Ht];
    [by rewrite allowUsage_disabled|].
  destruct (allowUsage_view currTime message w Ht) as [_ V].
  destruct (usage (this w) !! scopeId (this w) message)
    as [[bucket0 time0]|];
    [destruct (decide (Number.ofZ (currTime - time0) > _)%num);
       [|destruct (decide (Number.ofZ bucket0 == _)%num)]|];
    destruct V as [_ ->]; by rewrite ?lookup_insert_ne.
Qed.

Lemma X5_other_scopes_untouched_witness :
  let w := (allowUsage 0 Examples.aMessage (initWorld Examples.limited)).2 in
  usage (this (allowUsage 1 (mkMessage "g1" "u2" false) w).2) !! "u1"
  = Some (1, 0).
Proof.
  intros w.
  rewrite (X5_other_scopes_untouched 1 (mkMessage "g1" "u2" false) w "u1");
    [reflexivity | discriminate].
Defined.

(** X6.  A sweep is invisible to the gate: with the limit enabled, a call
    made at or after the time of a sweep has the outcome, and leaves the
    scope's entry, that it would have had without the sweep. *)
Theorem X6_sweep_transparent sweepTime currTime message w :
  ¬ (time (limit (options (this w))) == 0)%num →
  sweepTime ≤ currTime →
  let id := scopeId (this w) message in
  let swept := (_sweep sweepTime w).2 in
  (allowUsage currTime message swept).1 = (allowUsage currTime message w).1
  ∧ usage (this (allowUsage currTime message swept).2) !! id
    = usage (this (allowUsage currTime message w).2) !! id.
Proof.
  intros Ht Hle id swept. subst id.
  destruct (sweep_view sweepTime w) as (Ho & Hu & _). fold swept in Ho, Hu.
  assert (Ht' : ¬ (time (limit (options (this swept))) == 0)%num)
    by by rewrite Ho.
  pose proof (allowUsage_transition currTime message swept Ht')
    as (_ & Hr' & He').
  rewrite (scopeId_options _ _ message Ho), Ho in Hr', He'.
  destruct (allowUsage_transition currTime message w Ht) as (_ & -> & ->).
  rewrite Hr', He'.
  set (id := scopeId (this w) message).
  assert (Hsame :
    transition (limit (options (this w))) currTime (usage (this swept) !! id)
    = transition (limit (options (this w))) currTime (usage (this w) !! id));
    [|by rewrite Hsame].
  rewrite Hu.
  destruct (usage (this w) !! id) as [[bucket0 time0]|] eqn:Hid.
  - destruct (decide (Number.ofZ (sweepTime - time0)
                      > time (limit (options (this w))))%num)
      as [Hold|Hkeep].
    + rewrite (proj2 (map_lookup_filter_None _ _ _)); simpl.
      * rewrite bool_decide_eq_true_2; [done|].
        eapply gt_mono; [|exact Hold]. lia.
      * right. intros e He. rewrite Hid in He. injection He as <-.
        simpl. tauto.
    + erewrite (map_lookup_filter_Some_2 _ _ _ (bucket0, time0)); done.
  - rewrite (proj2 (map_lookup_filter_None _ _ _)); [done | by left].
Qed.

Lemma X6_sweep_transparent_witness :
  let w := (allowUsages [0; 1] Examples.aMessage
              (initWorld Examples.limited)).2 in
  (allowUsage 6000 Examples.aMessage (_sweep 5500 w).2).1
  = (allowUsage 6000 Examples.aMessage w).1.
Proof.
  intros w.
  apply (X6_sweep_transparent 5500 6000 Examples.aMessage w); [done | lia].
Defined.






Lemma allowedCount_cons r rs :
  allowedCount (r :: rs) = ((if r then 1 else 0) + allowedCount rs)%nat.
Proof.
  unfold allowedCount. destruct r.
  - by rewrite filter_cons_True.
  - by rewrite filter_cons_False by (by intros []).
Qed.

(** Inside one window, an entry with [bucket0] uses leaves room for no more
    than the rest of the bucket, the bucket maximum being the integer [B]. *)
Lemma allowUsages_room times : ∀ w message (B : Z) bucket0 time0 lo,
  ¬ (time (limit (options (this w))) == 0)%num →
  (bucket (limit (options (this w))) == B)%num →
  usage (this w) !! scopeId (this w) message = Some (bucket0, time0) →
  bucket0 ≤ B →
  lo ≤ time0 →
  (∀ t, t ∈ times →
        lo ≤ t
        ∧ ¬ (Number.ofZ (t - lo) > time (limit (options (this w))))%num) →
  Z.of_nat (allowedCount (allowUsages times message w).1) ≤ B - bucket0.
Proof.
  induction times as [|t times IH];
    intros w message B bucket0 time0 lo Ht HB Hu Hb Hlo Hin; simpl.
  - unfold ret. simpl. unfold allowedCount. simpl. lia.
  - destruct (Hin t) as [Hrange Hfresh]; [by left|].
    unfold bind.
    pose proof (allowUsage_transition t message w Ht) as (Ho & Hr & He).
    destruct (allowUsage t message w) as [r w1]. simpl in Ho, Hr, He.
    rewrite Hu in Hr, He. unfold transition in Hr, He.
    rewrite bool_decide_eq_false_2 in Hr, He
      by (intros Hover; apply Hfresh; eapply gt_mono; [|exact Hover]; lia).
    assert (Ht1 : ¬ (time (limit (options (this w1))) == 0)%num)
      by by rewrite Ho.
    assert (HB1 : (bucket (limit (options (this w1))) == B)%num)
      by by rewrite Ho.
    rewrite <- (scopeId_options _ _ message Ho) in He.
    case_bool_decide as Hfull; simpl in Hr, He; subst r.
    + specialize (IH w1 message B bucket0 time0 lo Ht1 HB1 He).
      rewrite Ho in IH.
      destruct (allowUsages times message w1) as [rs w2]. unfold ret. simpl.
      rewrite allowedCount_cons. simpl in IH |- *.
      apply IH; [done | done |]. intros t' Ht'. apply Hin. by right.
    + assert (bucket0 ≠ B) as Hne.
      { intros ->. apply Hfull. by apply strictEq_sym. }
      specialize (IH w1 message B (bucket0 + 1) t lo Ht1 HB1 He).
      rewrite Ho in IH.
      destruct (allowUsages times message w1) as [rs w2]. unfold ret. simpl.
      rewrite allowedCount_cons. simpl in IH |- *.
      cut (Z.of_nat (allowedCount rs) ≤ B - (bucket0 + 1)); [lia|].
      apply IH; [lia | done |]. intros t' Ht'. apply Hin. by right.
Qed.

(** X8.  The limit holds in every window: for a constructed command with the
    limit enabled and a bucket maximum that is the integer [B], whatever
    happened before, of the calls one scope makes at times from [lo] on that
    do not exceed the window counted from [lo], no more than [B] are
    allowed. *)
Theorem X8_window_limit d cls a h c h' ops message times lo (B : Z) :
  new d cls a h = (inr c, h') →
  ¬ (time (limit (options c)) == 0)%num →
  (bucket (limit (options c)) == B)%num →
  (∀ t, t ∈ times →
        lo ≤ t ∧ ¬ (Number.ofZ (t - lo) > time (limit (options c)))%num) →
  let w := runOps ops (initWorld c) in
  Z.of_nat (allowedCount (allowUsages times message w).1) ≤ B.
Proof.
  intros (_ & _ & _ & _ & Hu & _ & Hpos & _)%new_inv Ht HB Hin w.
  pose proof (integer_bucket_positive _ _ Hpos HB) as Hmax.
  destruct (runOps_bounded ops (initWorld c) B) as [Hb Ho]; [done | done | |].
  { intros id bucket0 time0. simpl. by rewrite Hu, lookup_empty. }
  fold w in Hb, Ho. simpl in Ho. rewrite <- Ho in Ht, Hin, HB.
  clearbody w. clear Ho Hu Hpos.
  revert w Ht Hin HB Hb.
  induction times as [|t times IH]; intros w Ht Hin HB Hb; simpl.
  - unfold ret. simpl. unfold allowedCount. simpl. lia.
  - unfold bind.
    pose proof (allowUsage_transition t message w Ht) as (Ho & Hr & He).
    pose proof (allowUsage_bounded t message w B HB Hmax Hb) as Hb1.
    destruct (allowUsage t message w) as [r w1] eqn:Hcall.
    simpl in Ho, Hr, He, Hb1.
    assert (Ht1 : ¬ (time (limit (options (this w1))) == 0)%num)
      by by rewrite Ho.
    assert (HB1 : (bucket (limit (options (this w1))) == B)%num)
      by by rewrite Ho.
    pose proof (scopeId_options _ _ message Ho) as Hs.
    rewrite (bounded_integer _ B HB) in Hb.
    rewrite (bounded_integer _ B HB1) in Hb1.
    destruct r.
    + (* allowed: the entry now holds at least one use, stamped [t] *)
      assert (∃ bucket1, usage (this w1) !! scopeId (this w1) message
                         = Some (bucket1, t) ∧ 1 ≤ bucket1) as (b1 & He1 & Hb1').
      { rewrite Hs, He. unfold transition in Hr |- *.
        destruct (usage (this w) !! scopeId (this w) message)
          as [[bucket0 time0]|] eqn:Hu; simpl;
          [|exists 1; split; [done|lia]].
        case_bool_decide; simpl; [exists 1; split; [done|lia]|].
        case_bool_decide; simpl in Hr |- *; [done|].
        exists (bucket0 + 1). split; [done|]. apply Hb in Hu. lia. }
      pose proof (allowUsages_room times w1 message B b1 t lo Ht1 HB1 He1)
        as Hroom.
      destruct (allowUsages times message w1) as [rs w2]. unfold ret. simpl.
      rewrite allowedCount_cons. simpl in Hroom |- *.
      cut (Z.of_nat (allowedCount rs) ≤ B - b1); [lia|].
      apply Hroom.
      * apply Hb1 in He1. lia.
      * destruct (Hin t) as [? ?]; [by left|]. done.
      * intros t' Ht'. rewrite Ho. apply Hin. by right.
    + (* denied: nothing changed *)
      assert (w1 = w) as ->.
      { pose proof (allowUsage_denied t message w) as Hd.
        rewrite Hcall in Hd. by apply Hd. }
      specialize (IH w Ht).
      destruct (allowUsages times message w) as [rs w2]. unfold ret. simpl.
      rewrite allowedCount_cons. simpl in IH |- *.
      apply IH; [|done|]. 
      * intros t' Ht'. apply Hin. by right.
      * by apply (bounded_integer _ B HB).
Qed.

Lemma X8_window_limit_witness :
  Z.of_nat (allowedCount
              (allowUsages [10; 20; 30; 5010] Examples.aMessage
                 (runOps [CallAllowUsage 0 Examples.aMessage; CallSweep 9]
                    (initWorld Examples.limited))).1)
  ≤ 2.
Proof.
  apply (X8_window_limit 0 Examples.Limited Examples.strictAddon emptyHeap
           Examples.limited
           (new 0 Examples.Limited Examples.strictAddon emptyHeap).2
           [CallAllowUsage 0 Examples.aMessage; CallSweep 9]
           Examples.aMessage [10; 20; 30; 5010] 10 2 eq_refl).
  - vm_compute. by intros [= ?].
  - reflexivity.
  - intros t Ht. set_unfold.
    destruct Ht as [->|[->|[->|[->|[]]]]]; (split; [lia|]);
      rewrite (lt_ofZ 5000); lia.
Defined.

(** The state of a command whose limit is switched off. *)
Lemma runOps_unlimited ops w :
  (time (limit (options (this w))) == 0)%num →
  usage (this w) = ∅ → timers w = ∅ →
  (time (limit (options (this (runOps ops w)))) == 0)%num
  ∧ usage (this (runOps ops w)) = ∅
  ∧ timers (runOps ops w) = ∅.
Proof.
  revert w. induction ops as [|op ops IH]; intros w Ht Hu Htm; [done|].
  simpl. apply IH.
  - by rewrite runOp_options.
  - destruct op as [currTime message|currTime]; simpl.
    + by rewrite allowUsage_disabled.
    + destruct (sweep_view currTime w) as (_ & -> & _).
      by rewrite Hu, map_filter_empty.
  - destruct op as [currTime message|currTime]; simpl.
    + by rewrite allowUsage_disabled.
    + destruct (sweep_view currTime w) as (_ & Hu' & _ & _ & Hs).
      rewrite Hu, map_filter_empty in Hu'.
      rewrite decide_True in Hs by done. destruct Hs as [_ ->].
      rewrite Htm. by destruct (_sweepInterval (this w));
        rewrite ?delete_empty.
Qed.

(** X9.  A command constructed without limit options is never limited:
    whatever calls and sweeps it has gone through, its ledger and the timer
    table are empty, and every call is allowed and changes nothing. *)
Theorem X9_no_limit_no_ledger d cls a h c h' ops :
  new d cls a h = (inr c, h') →
  opt_limit (superOptions cls) = None →
  let w := runOps ops (initWorld c) in
  usage (this w) = ∅
  ∧ timers w = ∅
  ∧ ∀ currTime message, allowUsage currTime message w = (true, w).
Proof.
  intros H Hnone w.
  pose proof (new_inv _ _ _ _ _ _ H) as (_ & _ & Ho & _ & Hu & _).
  destruct (runOps_unlimited ops (initWorld c)) as (Ht & Hu' & Htm);
    [by simpl; rewrite Ho; unfold merge; rewrite Hnone | done | done |].
  split_and!; [done | done |].
  intros currTime message. by apply allowUsage_disabled.
Qed.

Lemma X9_no_limit_no_ledger_witness :
  let w := runOps [CallAllowUsage 0 Examples.aMessage; CallSweep 1]
             (initWorld (Examples.child 0)) in
  usage (this w) = ∅ ∧ allowUsage 2 Examples.aMessage w = (true, w).
Proof.
  intros w.
  destruct (X9_no_limit_no_ledger 0 Examples.Child Examples.strictAddon
              emptyHeap (Examples.child 0)
              (new 0 Examples.Child Examples.strictAddon emptyHeap).2
              [CallAllowUsage 0 Examples.aMessage; CallSweep 1]
              eq_refl eq_refl) as (Hu & _ & Hall).
  split; [exact Hu | apply Hall].
Defined.

End UsageGate.

(** ** Replies *)

Section Replies.
Import Send.

(** X10.  [send] never hands the caller's options to the channel: with
    options given or omitted, the channel receives the content as it is and
    an empty options object; exactly one message reaches the channel, also
    when the call then throws for want of an entry in [responses]; and only
    the entry of the activating message can change. *)
Theorem X10_send_drops_options isObject messageId content o st :
  send isObject messageId content (Given o) st
  = send isObject messageId content Omitted st
  ∧ channel (send isObject messageId content (Given o) st).2
    = channel st ++ [mkSent content (Object [])]
  ∧ ((send isObject messageId content (Given o) st).1 = None
     ↔ responses st !! messageId = None)
  ∧ ∀ other, other ≠ messageId →
      responses (send isObject messageId content (Given o) st).2 !! other
      = responses st !! other.
Proof.
  unfold send. simpl.
  destruct (responses st !! messageId) as [list|]; simpl.
  - split_and!; [done | done | done |].
    intros other Hne. by rewrite lookup_insert_ne.
  - split_and!; done.
Qed.

End Replies.

(** ** The two loops of the validator *)

Section ValidatorPasses.
Import Validator.

Implicit Types (schema entries : Schema) (values : list string)
  (valueStore : gmap string ValueStoreEntry) (results : gmap string Result).

(** *** Tokens beyond the schema *)

Lemma coercePass_take entries i n values valueStore :
  i + length entries ≤ n →
  coercePass entries i (take n values) valueStore
  = coercePass entries i values valueStore.
Proof.
  revert i valueStore.
  induction entries as [|[k v] entries IH]; intros i valueStore Hn; [done|].
  simpl in *. rewrite lookup_take_lt by lia.
  destruct (values !! i) as [raw|]; [|done].
  destruct (coerce v raw); [|done]. by rewrite IH by lia.
Qed.

Lemma rulePass_take options message entries i n values valueStore results :
  i + length entries ≤ n →
  rulePass options message entries i (take n values) valueStore results
  = rulePass options message entries i values valueStore results.
Proof.
  revert i results.
  induction entries as [|[k v] entries IH]; intros i results Hn; [done|].
  simpl in *. rewrite lookup_take_lt by lia.
  destruct (valueStore !! k); [|done].
  destruct (ruleChain _ _ _ _ _ _) as [[errs|errs|] calls]; try done.
  by rewrite IH by lia.
Qed.

(** X11.  Tokens beyond the number of fields are ignored: [validate] gives
    the same answer, through the same calls, on the tokens cut to the length
    of the schema. *)
Theorem X11_surplus_tokens_ignored options message values schema :
  validate options message (take (length schema) values) schema
  = validate options message values schema.
Proof.
  unfold validate. rewrite coercePass_take by (simpl; lia).
  destruct (coercePass schema 0 values ∅) as [[early|valueStore] calls];
    [done|].
  by rewrite rulePass_take by (simpl; lia).
Qed.

(** *** The value store *)

Lemma coercePass_store entries : ∀ i values valueStore valueStore' calls,
  coercePass entries i values valueStore = (inr valueStore', calls) →
  calls = Coerce <$> entries.*1
  ∧ (∀ k, k ∉ entries.*1 → valueStore' !! k = valueStore !! k)
  ∧ (∀ k, k ∈ entries.*1 → is_Some (valueStore' !! k))
  ∧ ∀ j k v, entries !! j = Some (k, v) →
      ∃ raw coerced,
        values !! (i + j) = Some raw
        ∧ coerce v raw = Some coerced
        ∧ (k ∉ (drop (S j) entries).*1 →
           valueStore' !! k
           = Some {| value := coerced; type := v_type v; rawValue := raw |}).
Proof.
  induction entries as [|[k v] entries IH];
    intros i values valueStore valueStore' calls H; simpl in H.
  - simplify_eq. split_and!; try done.
    intros k Hk. by apply elem_of_nil in Hk.
  - destruct (values !! i) as [raw|] eqn:Hraw;
      [|by destruct (negb _)].
    destruct (coerce v raw) as [coerced|] eqn:Hc; [|done].
    destruct (coercePass entries (S i) values _) as [r calls1] eqn:Hrest.
    simplify_eq.
    apply IH in Hrest as (-> & Hout & Hin & Hat).
    split_and!.
    + done.
    + intros k' Hk'. simpl in Hk'. apply not_elem_of_cons in Hk' as [Hne Hk'].
      by rewrite Hout, lookup_insert_ne by done.
    + intros k' Hk'. simpl in Hk'. apply elem_of_cons in Hk' as [->|Hk'];
        [|by apply Hin].
      destruct (decide (k ∈ entries.*1)); [by apply Hin|].
      rewrite Hout by done. rewrite lookup_insert_eq. eauto.
    + intros [|j] k' v' Hj; simpl in Hj.
      * simplify_eq. exists raw, coerced. rewrite Nat.add_0_r.
        split_and!; [done | done |]. simpl. rewrite drop_0.
        intros Hlast. by rewrite Hout, lookup_insert_eq.
      * destruct (Hat j k' v' Hj) as (raw' & coerced' & Hr' & Hc' & Hs').
        exists raw', coerced'. rewrite Nat.add_succ_r. done.
Qed.

Lemma NoDup_keys_later entries j k v :
  NoDup entries.*1 → entries !! j = Some (k, v) →
  k ∉ (drop (S j) entries).*1.
Proof.
  revert j. induction entries as [|[k0 v0] entries IH]; intros j Hnd Hj;
    [done|].
  simpl in Hnd. apply NoDup_cons in Hnd as [Hk0 Hnd].
  destruct j as [|j]; simpl in *.
  - by simplify_eq; rewrite drop_0.
  - by eapply IH.
Qed.

(** X12.  When the first loop runs to its end over a schema with distinct
    keys, every field had a token that coerced, and the value store holds
    for every key, and for no other, the coerced value, the validator's type
    and the raw token of that field. *)
Theorem X12_value_store values schema valueStore calls :
  NoDup schema.*1 →
  coercePass schema 0 values ∅ = (inr valueStore, calls) →
  dom valueStore = list_to_set schema.*1
  ∧ ∀ j k v, schema !! j = Some (k, v) →
      ∃ raw coerced,
        values !! j = Some raw
        ∧ coerce v raw = Some coerced
        ∧ valueStore !! k
          = Some {| value := coerced; type := v_type v; rawValue := raw |}.
Proof.
  intros Hnd (_ & Hout & Hin & Hat)%coercePass_store. split.
  - apply set_eq. intros k. rewrite elem_of_dom, elem_of_list_to_set.
    split; [|by apply Hin].
    intros Hk. destruct (decide (k ∈ schema.*1)) as [|Hno]; [done|].
    rewrite (Hout k Hno), lookup_empty in Hk. by destruct Hk.
  - intros j k v Hj.
    destruct (Hat j k v Hj) as (raw & coerced & Hr & Hc & Hs).
    exists raw, coerced. split_and!; [done | done |].
    apply Hs. by eapply NoDup_keys_later.
Qed.

Lemma X12_value_store_witness :
  ∃ valueStore,
    coercePass [("n", Examples.numberValidator None);
                ("s", Examples.stringValidator None)] 0 ["7"; "x"] ∅
    = (inr valueStore, [Coerce "n"; Coerce "s"])
    ∧ dom valueStore = {["n"; "s"]}.
Proof.
  eexists. split; [reflexivity|].
  destruct (X12_value_store ["7"; "x"]
              [("n", Examples.numberValidator None);
               ("s", Examples.stringValidator None)] _ _
              ltac:(by apply (bool_decide_unpack _)) eq_refl) as [Hdom _].
  rewrite Hdom. done.
Defined.

(** *** The rule pass *)

Lemma tokensCoerce_pass entries i values valueStore :
  tokensCoerce entries i values →
  ∃ valueStore', (coercePass entries i values valueStore).1 = inr valueStore'.
Proof.
  revert i valueStore.
  induction entries as [|[k v] entries IH]; intros i valueStore Hall; simpl;
    [eauto|].
  destruct (Hall 0 (k, v) eq_refl) as (raw & Hraw & [coerced Hc]).
  rewrite Nat.add_0_r in Hraw. simpl in Hc. rewrite Hraw, Hc.
  destruct (IH (S i) (<[k := {| value := coerced; type := v_type v;
                                rawValue := raw |}]> valueStore))
    as [valueStore' Hrest].
  - intros j kv Hj. destruct (Hall (S j) kv Hj) as (raw' & Hraw' & Hc').
    exists raw'. by replace (S i + j) with (i + S j) by lia.
  - destruct (coercePass entries (S i) values _). simpl in *. eauto.
Qed.

Lemma ruleChain_returns abort key args rs : ∀ n errs,
  (∀ rule, rule ∈ rs → ∀ args, is_Some (rule args)) →
  (ruleChain abort key args rs n errs).1 ≠ RuleThrew
  ∧ (abort = false →
     ∃ errs', ruleChain abort key args rs n errs
              = (Completed errs', Rule key <$> seq n (length rs))).
Proof.
  induction rs as [|rule rs IH]; intros n errs Hall; simpl.
  - split; [done | eauto].
  - destruct (Hall rule (list_elem_of_here _ _) args) as [[result pushed] ->].
    destruct (IH (S n) (errs ++ pushed)) as [Hno Hfull].
    { intros rule' Hin. apply Hall. by right. }
    destruct (ruleChain abort key args rs (S n) (errs ++ pushed))
      as [exit calls] eqn:Hrest.
    split.
    + destruct (negb result && abort); [done|]. exact Hno.
    + intros ->. rewrite andb_false_r.
      destruct (Hfull eq_refl) as [errs' [= -> ->]]. eauto.
Qed.

Lemma rulePass_returns options message entries :
  ∀ i values valueStore results,
    (∀ k, k ∈ entries.*1 → is_Some (valueStore !! k)) →
    rulesReturn entries →
    ∃ r, (rulePass options message entries i values valueStore results).1
         = Returned r.
Proof.
  induction entries as [|[k v] entries IH];
    intros i values valueStore results Hstore Hrules; simpl; [eauto|].
  destruct (Hstore k) as [entry ->]; [by left|].
  match goal with |- context [ruleChain ?ab ?key ?args ?rs ?n ?errs] =>
    destruct (ruleChain_returns ab key args rs n errs) as [Hno _];
      [intros rule Hin; by apply (Hrules k v (list_elem_of_here _ _))|];
    destruct (ruleChain ab key args rs n errs) as [[errs'|errs'|] calls]
  end; simpl in *; [eauto| |done].
  match goal with |- context [rulePass ?o ?m ?e ?j ?vs ?st ?res] =>
    destruct (IH j vs st res) as [r Hr];
      [intros k' Hk'; apply Hstore; by right
      |intros k' v' Hin; apply (Hrules k' v'); by right|];
    destruct (rulePass o m e j vs st res) as [out calls']
  end.
  simpl in *. eauto.
Qed.

(** X13.  [validate] never fails on its own: if no rule of the schema
    throws, the call returns an object, whatever the tokens; in particular
    the second loop always finds the store entry it destructures. *)
Theorem X13_validate_returns options message values schema :
  rulesReturn schema →
  ∃ r, (validate options message values schema).1 = Returned r.
Proof.
  intros Hrules. unfold validate.
  destruct (coercePass schema 0 values ∅) as [[early|valueStore] calls]
    eqn:Hpass; [simpl; eauto|].
  apply coercePass_store in Hpass as (_ & _ & Hin & _).
  destruct (rulePass_returns options message schema 0 values valueStore ∅
              Hin Hrules) as [r Hr].
  destruct (rulePass options message schema 0 values valueStore ∅).
  simpl in *. eauto.
Qed.

Lemma X13_validate_returns_witness :
  ∃ r, (validate defaultOptions Examples.aMessage ["7"; "x"; "y"]
          [("n", Examples.numberValidator None);
           ("s", Examples.stringValidator None)]).1
       = Returned r.
Proof.
  apply X13_validate_returns.
  intros k v Hin rule Hrule.
  assert (Hnone : rules v = []).
  { repeat (apply elem_of_cons in Hin as [[= -> ->]|Hin]; [done|]).
    by apply elem_of_nil in Hin. }
  rewrite Hnone in Hrule. by apply elem_of_nil in Hrule.
Defined.

Lemma rulePass_shape options message entries :
  ∀ i values valueStore results r calls,
    rulePass options message entries i values valueStore results
    = (Returned r, calls) →
    (∃ k errs, r = {[k := Errors errs]})
    ∨ (dom r = dom results ∪ list_to_set entries.*1
       ∧ ∀ k, r !! k = Some Null → results !! k = Some Null).
Proof.
  induction entries as [|[k v] entries IH];
    intros i values valueStore results r calls H; simpl in H.
  - simplify_eq. right. split; [|done].
    simpl. by rewrite (right_id_L ∅ (∪)).
  - destruct (valueStore !! k) as [entry|]; [|done].
    destruct (ruleChain _ _ _ _ _ _) as [[errs|errs|] calls1]; [| |done].
    + simplify_eq. left. eauto.
    + destruct (rulePass _ _ entries _ _ _ _) as [out calls2] eqn:Hrest.
      simplify_eq. apply IH in Hrest as [Hone|[Hdom Hnull]]; [by left|].
      right. split.
      * rewrite Hdom, dom_insert_L, fmap_cons, list_to_set_cons. simpl.
        by rewrite (comm_L (∪) {[k]}), (assoc_L (∪)).
      * intros k' Hk'. apply Hnull in Hk'.
        destruct (decide (k = k')) as [->|Hne].
        -- rewrite lookup_insert_eq in Hk'.
           destruct errs; [destruct (coerceOption options)|]; done.
        -- by rewrite lookup_insert_ne in Hk'.
Qed.

Lemma coercePass_early entries : ∀ i values valueStore early calls,
  coercePass entries i values valueStore = (inl early, calls) →
  (∃ k, early = {[k := Null]}) ∨ (∃ k errs, early = {[k := Errors errs]}).
Proof.
  induction entries as [|[k v] entries IH];
    intros i values valueStore early calls H; simpl in H; [done|].
  destruct (values !! i) as [raw|].
  - destruct (coerce v raw); [|simplify_eq; right; eauto].
    destruct (coercePass entries (S i) values _) as [out calls1] eqn:Hrest.
    simplify_eq. by eapply IH.
  - destruct (negb _); simplify_eq; [right|left]; eauto.
Qed.

(** X14.  What [validate] returns has one of two shapes: an object with a
    single key, mapped to null or to a list of violations (an early exit),
    or an object whose keys are exactly the keys of the schema, none of
    them mapped to null. *)
Theorem X14_result_shape options message values schema r :
  (validate options message values schema).1 = Returned r →
  (∃ k, r = {[k := Null]})
  ∨ (∃ k errs, r = {[k := Errors errs]})
  ∨ (dom r = list_to_set schema.*1 ∧ ∀ k, r !! k ≠ Some Null).
Proof.
  unfold validate.
  destruct (coercePass schema 0 values ∅) as [[early|valueStore] calls]
    eqn:Hpass; simpl.
  - intros [= <-]. apply coercePass_early in Hpass as [?|?]; auto.
  - destruct (rulePass options message schema 0 values valueStore ∅)
      as [out calls'] eqn:Hrules.
    simpl. intros ->.
    apply rulePass_shape in Hrules as [Hone|[Hdom Hnull]];
      [by right; left|].
    right; right. split.
    + by rewrite Hdom, dom_empty_L, (left_id_L ∅ (∪)).
    + intros k Hk. apply Hnull in Hk. by rewrite lookup_empty in Hk.
Qed.

Lemma X14_result_shape_witness :
  dom ({["n" := Value (PNumber 7); "s" := Value (PString "x")]}
         : gmap string Result)
  = list_to_set ["n"; "s"].
Proof.
  destruct (X14_result_shape defaultOptions Examples.aMessage ["7"; "x"]
              [("n", Examples.numberValidator None);
               ("s", Examples.stringValidator None)]
              {["n" := Value (PNumber 7); "s" := Value (PString "x")]}
              eq_refl) as [[k Hk]|[(k & errs & Hk)|[Hdom _]]].
  - apply (f_equal size) in Hk. by rewrite map_size_singleton in Hk.
  - apply (f_equal size) in Hk. by rewrite map_size_singleton in Hk.
  - exact Hdom.
Defined.



Lemma ruleChain_pass abort key args rs : ∀ n errs,
  (∀ rule, rule ∈ rs → rule args = Some (true, [])) →
  ruleChain abort key args rs n errs
  = (Completed errs, Rule key <$> seq n (length rs)).
Proof.
  induction rs as [|rule rs IH]; intros n errs Hall; simpl; [done|].
  rewrite (Hall rule (list_elem_of_here _ _)). simpl.
  rewrite app_nil_r, IH; [done|]. intros rule' Hin. apply Hall. by right.
Qed.

Lemma rulePass_pass options message entries :
  ∀ i values valueStore results,
    (∀ k, k ∈ entries.*1 → is_Some (valueStore !! k)) →
    rulesPassFrom message values valueStore i entries →
    ∃ r, (rulePass options message entries i values valueStore results).1
         = Returned r
         ∧ (∀ k, k ∉ entries.*1 → r !! k = results !! k)
         ∧ ∀ j k v, entries !! j = Some (k, v) →
             k ∉ (drop (S j) entries).*1 →
             ∃ entry, valueStore !! k = Some entry
                      ∧ r !! k = Some (if coerceOption options
                                       then Value (value entry)
                                       else Raw (values !! (i + j))).
Proof.
  induction entries as [|[k v] entries IH];
    intros i values valueStore results Hstore Hrules; simpl.
  - exists results. split_and!; done.
  - destruct (Hstore k) as [entry Hentry]; [by left|]. rewrite Hentry.
    rewrite ruleChain_pass.
    2:{ intros rule Hin.
        pose proof (Hrules 0%nat k v entry rule eq_refl Hentry Hin) as Hok.
        by rewrite Nat.add_0_r in Hok. }
    match goal with |- context [rulePass ?o ?m ?e ?j ?vs ?st ?res] =>
      destruct (IH j vs st res) as (r & Hr & Hout & Hat);
        [intros k' Hk'; apply Hstore; by right
        |intros j' k' v' entry' rule Hj' He' Hin;
         pose proof (Hrules (S j') k' v' entry' rule Hj' He' Hin) as Hok;
         by rewrite Nat.add_succ_r in Hok|];
      destruct (rulePass o m e j vs st res) as [out calls']
    end.
    simpl in *. subst out. exists r. split_and!; [done| |].
    + intros k' [Hne Hk']%not_elem_of_cons.
      by rewrite Hout, lookup_insert_ne.
    + intros [|j] k' v' Hj Hlast; simpl in *.
      * simplify_eq. rewrite drop_0 in Hlast. exists entry.
        split; [done|]. rewrite Hout by done.
        by rewrite lookup_insert_eq, Nat.add_0_r.
      * destruct (Hat j k' v' Hj Hlast) as (entry' & He' & Hr').
        exists entry'. split; [done|]. by rewrite Nat.add_succ_r.
Qed.

(** X16.  On tokens that all coerce, for a schema with distinct keys whose
    rules all pass on this call, given the arguments the second loop hands
    them, without pushing a violation, [validate] returns an object
    with exactly the keys of the schema, each mapped to the coerced value of
    its token when the [coerce] option is on, and to the raw token
    otherwise. *)
Theorem X16_valid_tokens options message values schema :
  NoDup schema.*1 →
  tokensCoerce schema 0 values →
  rulesPass message values schema →
  ∃ r, (validate options message values schema).1 = Returned r
       ∧ dom r = list_to_set schema.*1
       ∧ ∀ j k v, schema !! j = Some (k, v) →
           ∃ raw coerced,
             values !! j = Some raw
             ∧ coerce v raw = Some coerced
             ∧ r !! k = Some (if coerceOption options
                              then Value coerced else Raw (Some raw)).
Proof.
  intros Hnd Htokens Hrules. unfold validate.
  destruct (tokensCoerce_pass schema 0 values ∅ Htokens) as [valueStore Hv].
  destruct (coercePass schema 0 values ∅) as [out calls] eqn:Hpass.
  simpl in Hv. subst out. specialize (Hrules valueStore calls Hpass).
  apply coercePass_store in Hpass as (_ & _ & Hin & Hstore).
  destruct (rulePass_pass options message schema 0 values valueStore ∅
              Hin Hrules) as (r & Hr & Hout & Hat).
  destruct (rulePass options message schema 0 values valueStore ∅)
    as [out calls'] eqn:Hrun.
  simpl in *. subst out. exists r. split_and!; [done| |].
  - apply rulePass_shape in Hrun as [(k & errs & ->)|[Hdom _]].
    + destruct schema as [|[k0 v0] schema].
      * specialize (Hout k ltac:(by intros ?%elem_of_nil)).
        by rewrite lookup_singleton_eq, lookup_empty in Hout.
      * destruct (Hat 0 k0 v0 eq_refl) as (entry & _ & Hk0).
        { by apply (NoDup_keys_later _ 0 k0 v0). }
        destruct (decide (k = k0)) as [->|Hne].
        -- rewrite lookup_singleton_eq in Hk0.
           by destruct (coerceOption options).
        -- by rewrite lookup_singleton_ne in Hk0.
    + by rewrite Hdom, dom_empty_L, (left_id_L ∅ (∪)).
  - intros j k v Hj.
    pose proof (NoDup_keys_later _ _ _ _ Hnd Hj) as Hlast.
    destruct (Hstore j k v Hj) as (raw & coerced & Hraw & Hc & Hs).
    destruct (Hat j k v Hj Hlast) as (entry & He & Hk).
    exists raw, coerced. split_and!; [done | done |].
    rewrite Hs in He by done. simplify_eq. simpl in *. by rewrite Hraw in Hk.
Qed.

Lemma X16_valid_tokens_witness :
  ∃ r, (validate defaultOptions Examples.aMessage
          ["<@123456789012345678>"; "<@123456789012345678>"]
          Examples.mentionSchema).1
       = Returned r
       ∧ r !! "mention" = Some (Value (PString "<@123456789012345678>")).
Proof.
  destruct (X16_valid_tokens defaultOptions Examples.aMessage
              ["<@123456789012345678>"; "<@123456789012345678>"]
              Examples.mentionSchema)
    as (r & Hr & _ & Hat).
  - by apply (bool_decide_unpack _).
  - intros [|[|j]] kv Hj; simplify_eq/=; eauto.
  - intros valueStore calls [= <- _] j k v entry rule Hj He Hin.
    destruct j as [|[|j]]; simplify_eq/=.
    + vm_compute in He. simplify_eq.
      apply elem_of_cons in Hin as [->|Hin]; [reflexivity|].
      apply elem_of_cons in Hin as [->|Hin]; [reflexivity|].
      by apply elem_of_nil in Hin.
    + vm_compute in He. simplify_eq.
      apply elem_of_cons in Hin as [->|Hin]; [reflexivity|].
      by apply elem_of_nil in Hin.
  - exists r. split; [exact Hr|].
    destruct (Hat 0%nat "mention"
                (Examples.withRules [Examples.minLength 3; Examples.userRule])
                eq_refl)
      as (raw & coerced & Hraw & Hc & Hk).
    injection Hraw as <-. injection Hc as <-. exact Hk.
Defined.

(** The rules of the example are not constant: on other tokens the first
    rule of [mention] refuses, and with [abortEarly] the call returns that
    field's violations alone. *)
Example mention_refused :
  (validate defaultOptions Examples.aMessage ["hi"; "hi"]
     Examples.mentionSchema)
  = (Returned
       {["mention" := Errors [mkValidationError (Some "hi") "mention"
                                "string.min"]]},
     [Coerce "mention"; Coerce "again"; Rule "mention" 0]).
Proof. reflexivity. Qed.


End ValidatorPasses.

(** ** The Discord rules *)

Section DiscordPatterns.
Import StringSchema.
Import Stdlib.Strings.Ascii.

Example user_mentions :
  userPattern "<@!123456789012345678>" = Some "123456789012345678"
  ∧ userPattern "<@123456789012345678" = Some "123456789012345678"
  ∧ userPattern "123456789012345678>" = Some "123456789012345678"
  ∧ userPattern "<@&123456789012345678>" = None
  ∧ userPattern "1234567890123456" = None
  ∧ userPattern "12345678901234567890" = None
  ∧ emojiPattern "<a:party_1:123456789012345678>" = Some "123456789012345678"
  ∧ emojiPattern "<:x:123456789012345678>" = None.
Proof. repeat split. Qed.

Implicit Types (s id pre suf : string) (p : ascii → bool).

Local Arguments String.append !_ _ / : simpl nomatch.

Lemma append_empty_r s : s +:+ "" = s.
Proof. induction s as [|c s IH]; simpl; [done | by rewrite IH]. Qed.

Lemma stripPrefix_Some pre s r : stripPrefix pre s = Some r ↔ s = pre +:+ r.
Proof.
  revert s. induction pre as [|c pre IH]; intros s; simpl.
  - split; [by intros [= ->] | by intros ->].
  - destruct s as [|d s]; [done|].
    case_bool_decide as Hcd; [subst d|].
    + rewrite IH. split; [by intros -> | by intros [= ->]].
    + split; [done | by intros [= -> _]].
Qed.

Lemma span_spec p s :
  s = (span p s).1 +:+ (span p s).2
  ∧ allOf p (span p s).1
  ∧ stopsAt p (span p s).2.
Proof.
  induction s as [|c s (IH1 & IH2 & IH3)]; simpl.
  - split_and!; [done | by intros c [] | done].
  - destruct (p c) eqn:Hc; simpl.
    + destruct (span p s) as [taken rest]. simpl in *.
      split_and!; [by rewrite <- IH1 | | done].
      intros d [<-|Hd]; [done | by apply IH2].
    + split_and!; [done | by intros d [] | done].
Qed.

Lemma span_exact p taken rest :
  allOf p taken → stopsAt p rest → span p (taken +:+ rest) = (taken, rest).
Proof.
  intros Hall Hstop. induction taken as [|c taken IH]; simpl.
  - destruct rest as [|d rest]; simpl in *; [done|]. by rewrite Hstop.
  - rewrite (Hall c) by (by left). rewrite IH; [done|].
    intros d Hd. apply Hall. by right.
Qed.

Lemma idAtEnd_iff s id :
  idAtEnd s = Some id ↔ isId id ∧ (s = id ∨ s = id +:+ ">").
Proof.
  unfold idAtEnd, isId. split.
  - destruct (span_spec isDigit s) as (Hs & Hall & _).
    destruct (span isDigit s) as [taken rest]. cbn [fst snd] in Hs, Hall.
    destruct (17 <=? String.length taken)%nat eqn:Hlo; simpl; [|done].
    destruct (String.length taken <=? 19)%nat eqn:Hhi; simpl; [|done].
    apply Nat.leb_le in Hlo, Hhi.
    repeat case_bool_decide; simpl; intros [= <-]; subst rest;
      (split; [done|]); [left | left | right]; try done;
      by rewrite append_empty_r in Hs.
  - intros ((Hall & Hlen) & Hs).
    assert (∃ suf, s = id +:+ suf ∧ (suf = "" ∨ suf = ">")) as (suf & -> & Hsuf).
    { destruct Hs as [->| ->]; [exists ""|exists ">"]; split; auto.
      by rewrite append_empty_r. }
    rewrite span_exact; [|done|by destruct Hsuf as [->| ->]].
    rewrite (proj2 (Nat.leb_le _ _)), (proj2 (Nat.leb_le _ _)) by lia.
    simpl. by destruct Hsuf as [->| ->].
Qed.

(** An id starts with a digit. *)
Lemma isId_head id : isId id → ∃ d rest, id = String d rest ∧ isDigit d = true.
Proof.
  intros [Hall Hlen]. destruct id as [|d rest]; simpl in Hlen; [lia|].
  exists d, rest. split; [done|]. apply Hall. by left.
Qed.

Lemma stripPrefix_digit c pre d rest :
  isDigit c = false → isDigit d = true →
  stripPrefix (String c pre) (String d rest) = None.
Proof.
  intros Hc Hd. simpl. by rewrite bool_decide_eq_false_2 by congruence.
Qed.

Lemma userPattern_iff s id :
  userPattern s = Some id
  ↔ isId id
    ∧ ∃ pre suf,
        (pre = "" ∨ pre = "<@" ∨ pre = "<@!")
        ∧ (suf = "" ∨ suf = ">")
        ∧ s = pre +:+ id +:+ suf.
Proof.
  unfold userPattern. split.
  - destruct (stripPrefix "<@!" s) as [r|] eqn:H1;
      [|destruct (stripPrefix "<@" s) as [r|] eqn:H2];
      intros [Hid Hs]%idAtEnd_iff; (split; [done|]).
    + apply stripPrefix_Some in H1 as ->. exists "<@!".
      destruct Hs as [->| ->]; [exists ""|exists ">"];
        rewrite ?append_empty_r; auto.
    + apply stripPrefix_Some in H2 as ->. exists "<@".
      destruct Hs as [->| ->]; [exists ""|exists ">"];
        rewrite ?append_empty_r; auto.
    + exists "". destruct Hs as [->| ->]; [exists ""|exists ">"];
        rewrite ?append_empty_r; auto.
  - intros (Hid & pre & suf & Hpre & Hsuf & ->).
    destruct (isId_head id Hid) as (d & rest & Hd & Hdigit).
    assert (Hend : idAtEnd (id +:+ suf) = Some id).
    { apply idAtEnd_iff. split; [done|].
      destruct Hsuf as [->| ->]; [left|right];
        by rewrite ?append_empty_r. }
    destruct Hpre as [->|[->| ->]]; simpl.
    + rewrite Hd in *. simpl.
      rewrite !bool_decide_eq_false_2
        by (intros <-; by vm_compute in Hdigit).
      done.
    + rewrite Hd in *. simpl.
      rewrite bool_decide_eq_false_2
        by (intros <-; by vm_compute in Hdigit).
      done.
    + done.
Qed.

(** X17.  The user pattern accepts exactly an id of 17 to 19 digits,
    optionally preceded by [<@] or [<@!] and optionally followed by [>],
    the two being independent: an unclosed [<@id] and a dangling [id>] are
    accepted as well; what it captures is the id. *)
Theorem X17_user_pattern s id :
  userPattern s = Some id
  ↔ isId id
    ∧ ∃ pre suf,
        (pre = "" ∨ pre = "<@" ∨ pre = "<@!")
        ∧ (suf = "" ∨ suf = ">")
        ∧ s = pre +:+ id +:+ suf.
Proof. exact (userPattern_iff s id). Qed.

(** X18.  A bare id is accepted by every pattern: whatever the snowflake
    pattern accepts is the whole string, an id, and the user, channel, emoji
    and role patterns accept it too and capture the same id. *)
Theorem X18_snowflake_everywhere s id :
  snowflakePattern s = Some id →
  id = s ∧ isId s
  ∧ userPattern s = Some s
  ∧ channelPattern s = Some s
  ∧ emojiPattern s = Some s
  ∧ rolePattern s = Some s.
Proof.
  unfold snowflakePattern.
  destruct (span_spec isDigit s) as (Hs & Hall & _).
  destruct (span isDigit s) as [taken rest]. cbn [fst snd] in Hs, Hall.
  destruct (17 <=? String.length taken)%nat eqn:Hlo; simpl; [|done].
  destruct (String.length taken <=? 19)%nat eqn:Hhi; simpl; [|done].
  apply Nat.leb_le in Hlo, Hhi.
  case_bool_decide; [|done]. intros [= <-]. subst rest.
  rewrite append_empty_r in Hs. subst taken.
  assert (Hid : isId s) by done.
  assert (Hend : idAtEnd s = Some s) by (apply idAtEnd_iff; auto).
  destruct (isId_head s Hid) as (d & rest & -> & Hdigit).
  split_and!; [done | done | | | |];
    unfold userPattern, channelPattern, emojiPattern, rolePattern;
    rewrite ?stripPrefix_digit by done; done.
Qed.

Lemma X18_snowflake_everywhere_witness :
  userPattern "123456789012345678" = Some "123456789012345678"
  ∧ emojiPattern "123456789012345678" = Some "123456789012345678".
Proof.
  destruct (X18_snowflake_everywhere "123456789012345678"
              "123456789012345678" eq_refl)
    as (_ & _ & Hu & _ & He & _).
  split; [exact Hu | exact He].
Defined.

(** X19.  The rule that [user()] adds: without a message it accepts every
    value; with one it accepts exactly the user mentions, in any of the
    forms of the pattern, whose id is the id of a member of the guild. *)
Theorem X19_user_rule value guild :
  checkDiscordStrings "user" value None = true
  ∧ (checkDiscordStrings "user" value (Some guild) = true
     ↔ ∃ id pre suf,
         isId id ∧ id ∈ members guild
         ∧ (pre = "" ∨ pre = "<@" ∨ pre = "<@!")
         ∧ (suf = "" ∨ suf = ">")
         ∧ value = pre +:+ id +:+ suf).
Proof.
  split; [done|]. unfold checkDiscordStrings.
  rewrite bool_decide_eq_true_2 by done.
  destruct (userPattern value) as [id|] eqn:Hmatch.
  - apply userPattern_iff in Hmatch as (Hid & pre & suf & Hpre & Hsuf & ->).
    rewrite bool_decide_eq_true. split.
    + intros Hin. exists id, pre, suf. done.
    + intros (id' & pre' & suf' & Hid' & Hin & Hpre' & Hsuf' & Heq).
      assert (userPattern (pre +:+ id +:+ suf) = Some id') as Hm'
        by (rewrite Heq; apply userPattern_iff; eauto 10).
      assert (userPattern (pre +:+ id +:+ suf) = Some id) as Hm
        by (apply userPattern_iff; eauto 10).
      congruence.
  - split; [done|].
    intros (id & pre & suf & Hid & _ & Hpre & Hsuf & ->).
    assert (userPattern (pre +:+ id +:+ suf) = Some id) as Hm
      by (apply userPattern_iff; eauto 10).
    congruence.
Qed.

End DiscordPatterns.

(** ** The rules and the exceptions of [ArraySchema] *)

Section ArrayRules.
Import ArraySchema.
Local Open Scope Z_scope.
Local Open Scope schema_scope.

(** X20.  On an array, the three size rules agree with each other: when the
    argument resolves to a number, not-a-number included, each of them
    answers without touching the state, [length] accepts exactly when both
    [min] and [max] accept, and one of [min] and [max] accepts unless the
    number is not-a-number, which all three refuse; when the argument
    resolves to anything else each of them throws. *)
Theorem X20_size_rules (resolve : Value → Value) num args items σ :
  arg_value args = VArray items →
  match resolve num with
  | VNumber resolved =>
      ∃ exact atLeast atMost,
        (lengthRule resolve num).1 args σ = (inr exact, σ)
        ∧ (minRule resolve num).1 args σ = (inr atLeast, σ)
        ∧ (maxRule resolve num).1 args σ = (inr atMost, σ)
        ∧ exact = atLeast && atMost
        ∧ atLeast || atMost = negb (Number.isNaN resolved)
  | _ =>
      ∃ e1 e2 e3,
        (lengthRule resolve num).1 args σ = (inl e1, σ)
        ∧ (minRule resolve num).1 args σ = (inl e2, σ)
        ∧ (maxRule resolve num).1 args σ = (inl e3, σ)
  end.
Proof.
  intros Hvalue. unfold lengthRule, minRule, maxRule. simpl.
  destruct (resolve num) as [| |b|x|t|xs]; unfold throw, ret;
    try (do 3 eexists; split_and!; reflexivity).
  do 3 eexists. split_and!; try reflexivity.
  - pose proof (strictEq_le (Number.ofZ (itemCount (arg_value args))) x).
    repeat case_bool_decide; simpl; tauto.
  - pose proof (le_total (Number.ofZ (itemCount (arg_value args))) x) as H.
    simpl in H.
    repeat case_bool_decide; destruct (Number.isNaN x); simpl;
      try done; intuition congruence.
Qed.

Lemma X20_size_rules_witness :
  ∃ exact atLeast atMost,
    (lengthRule id (VNumber 3%Z)).1
      {| arg_value := VArray Examples.oneTwoX;
         arg_rawValue := VArray Examples.oneTwoX;
         arg_key := None; arg_parent := None |} Examples.noRoot
    = (inr exact, Examples.noRoot)
    ∧ (minRule id (VNumber 3%Z)).1
        {| arg_value := VArray Examples.oneTwoX;
           arg_rawValue := VArray Examples.oneTwoX;
           arg_key := None; arg_parent := None |} Examples.noRoot
      = (inr atLeast, Examples.noRoot)
    ∧ (maxRule id (VNumber 3%Z)).1
        {| arg_value := VArray Examples.oneTwoX;
           arg_rawValue := VArray Examples.oneTwoX;
           arg_key := None; arg_parent := None |} Examples.noRoot
      = (inr atMost, Examples.noRoot)
    ∧ exact = atLeast && atMost
    ∧ atLeast || atMost = true.
Proof.
  exact (X20_size_rules id (VNumber 3%Z)
           {| arg_value := VArray Examples.oneTwoX;
              arg_rawValue := VArray Examples.oneTwoX;
              arg_key := None; arg_parent := None |}
           Examples.oneTwoX Examples.noRoot eq_refl).
Defined.

(** A limit that is not-a-number passes [typeof resolved !== 'number'] and
    is refused by the three rules alike. *)
Example size_rules_NaN :
  let args := {| arg_value := VArray Examples.oneTwoX;
                 arg_rawValue := VArray Examples.oneTwoX;
                 arg_key := None; arg_parent := None |} in
  (lengthRule id (VNumber Number.NaN)).1 args Examples.noRoot
  = (inr false, Examples.noRoot)
  ∧ (minRule id (VNumber Number.NaN)).1 args Examples.noRoot
    = (inr false, Examples.noRoot)
  ∧ (maxRule id (VNumber Number.NaN)).1 args Examples.noRoot
    = (inr false, Examples.noRoot).
Proof. repeat split. Qed.

(** The loop when the call for an item throws. *)
Lemma validateItems_throws inner options array abort before item after i acc
    σ rs σ1 e σ2 :
  itemRuns inner options array i before σ rs σ1 →
  abort = false ∨ Forall (λ r, pass r = true) rs →
  validate inner item (itemOptions options array (i + length before)) σ1
  = (inl e, σ2) →
  validateItems inner options array abort (before ++ item :: after) i acc σ
  = (inl e, σ2).
Proof.
  intros Hruns. revert acc.
  induction Hruns as [i σ|i x rest σ r0 σ0 rs σ1 Hcall _ IH];
    intros acc Hall Hitem; simpl.
  - rewrite Nat.add_0_r in Hitem. unfold bind. by rewrite Hitem.
  - unfold bind. rewrite Hcall.
    replace (i + length (x :: rest))%nat with (S i + length rest)%nat
      in Hitem by (simpl; lia).
    destruct (pass r0) eqn:Hr0; simpl.
    + apply IH; [|done].
      destruct Hall as [|Hall]; [by left|right]. by inversion Hall.
    + destruct Hall as [->|Hall]; [|inversion Hall; congruence].
      apply IH; [by left|done].
Qed.

(** X21.  [validate] catches nothing.  An exception of the base validation
    (a rule that throws) leaves the call as it is; and when the call for an
    item throws, the items before it having been visited, the whole call
    throws the same exception in the state the item left: no result is
    returned and no later item is visited. *)
Theorem X21_exceptions_propagate self inner v options σ :
  _schema self = Some inner →
  (∀ e σ0,
     Schema_validate (hooksOf self) v options σ = (inl e, σ0) →
     ArraySchema_validate self v options σ = (inl e, σ0))
  ∧ (∀ base σ0 before item after rs σ2 e σ3,
       Schema_validate (hooksOf self) v options σ = (inr base, σ0) →
       pass base = true →
       value base = Some (VArray (before ++ item :: after)) →
       let array := VArray (before ++ item :: after) in
       itemRuns inner options array 0 before (enterLoop options array σ0)
         rs σ2 →
       default true (shouldAbortEarly options) = false
       ∨ Forall (λ r, pass r = true) rs →
       validate inner item (itemOptions options array (length before)) σ2
       = (inl e, σ3) →
       ArraySchema_validate self v options σ = (inl e, σ3)).
Proof.
  intros Hinner. split.
  - intros e σ0 Hbase. unfold ArraySchema_validate. unfold bind at 1.
    by rewrite Hbase.
  - intros base σ0 before item after rs σ2 e σ3 Hbase Hpass Hvalue array
      Hruns Hall Hitem.
    unfold ArraySchema_validate. unfold bind at 1.
    rewrite Hbase, Hinner, Hpass, Hvalue. simpl.
    assert (Henter :
      (match path options with
       | None => setValue array
       | Some _ => ret tt
       end) σ0 = (inr tt, enterLoop options array σ0)).
    { unfold enterLoop. by destruct (path options). }
    unfold bind at 1. fold array. rewrite Henter.
    unfold bind at 1.
    by rewrite (validateItems_throws _ _ _ _ _ _ _ _ _ _ _ _ _ _
                  Hruns Hall Hitem).
Qed.

Lemma X21_exceptions_propagate_witness :
  ArraySchema_validate Examples.arrayOfBadLength
    (VArray [VArray []; VArray []]) Examples.collectAll Examples.noRoot
  = (inl (mkNebulaError
            "The number of items for array.length must be a number"),
     {| rootValue := Some (VArray [VArray []; VArray []]) |}).
Proof.
  destruct (X21_exceptions_propagate Examples.arrayOfBadLength
              (asSchema Examples.badLength)
              (VArray [VArray []; VArray []]) Examples.collectAll
              Examples.noRoot eq_refl) as [_ Hitem].
  apply (Hitem {| value := Some (VArray [VArray []; VArray []]);
                  errors := []; pass := true |}
               Examples.noRoot [] (VArray []) [VArray []] []
               {| rootValue := Some (VArray [VArray []; VArray []]) |}).
  - reflexivity.
  - reflexivity.
  - reflexivity.
  - apply runs_nil.
  - by left.
  - reflexivity.
Defined.

End ArrayRules.
